(** * City of Playford development applications scraper

    A shallow embedding of [scraper.ts]: the column locator, the per-row
    record extractor, the address clean-up, the received-date normalisation
    and the [insertRow] database gateway, with the properties the
    specification states about them. *)

From Stdlib Require Import Ascii String List NArith ZArith Bool Lia.
Import ListNotations.

(** ** JavaScript strings

    A JavaScript string is a sequence of UTF-16 code units.  Code units are
    kept as [N]; [===] on strings is equality of the sequences. *)

Module JsString.

Definition char := N.
Definition jsstring := list char.

Fixpoint lit (s : string) : jsstring :=
  match s with
  | EmptyString => []
  | String a rest => N_of_ascii a :: lit rest
  end.

Definition char_eqb (a b : char) : bool := N.eqb a b.

Fixpoint eqb (a b : jsstring) : bool :=
  match a, b with
  | [], [] => true
  | x :: a', y :: b' => char_eqb x y && eqb a' b'
  | _, _ => false
  end.

Definition isEmpty (s : jsstring) : bool :=
  match s with [] => true | _ :: _ => false end.

(** [WhiteSpace] and [LineTerminator] of ECMAScript: what [trim] strips and
    what [\s] matches. *)
Definition isWhiteSpace (c : char) : bool :=
  ((9 <=? c) && (c <=? 13) || (c =? 32) || (c =? 160) || (c =? 5760)
   || (8192 <=? c) && (c <=? 8202) || (c =? 8232) || (c =? 8233)
   || (c =? 8239) || (c =? 8287) || (c =? 12288) || (c =? 65279))%N.

Definition space : char := 32%N.

Fixpoint trimStart (s : jsstring) : jsstring :=
  match s with
  | [] => []
  | c :: rest => if isWhiteSpace c then trimStart rest else s
  end.

Definition trimEnd (s : jsstring) : jsstring := rev (trimStart (rev s)).

(** [s.trim()] *)
Definition trim (s : jsstring) : jsstring := trimEnd (trimStart s).

(** [s.replace(/\s\s+/g, " ")]: the scan goes left to right; at a position
    where two white-space code units follow each other the match extends over
    the whole run ([+] is greedy) and is replaced by one space; any other
    code unit is copied.  [InRun] is the state after the first code unit of
    a match has been consumed. *)
Inductive scanState := Scan | InRun.

Fixpoint replaceRuns (st : scanState) (s : jsstring) : jsstring :=
  match s with
  | [] => []
  | c :: rest =>
      match st with
      | InRun =>
          if isWhiteSpace c then replaceRuns InRun rest
          else c :: replaceRuns Scan rest
      | Scan =>
          if isWhiteSpace c then
            match rest with
            | c2 :: _ =>
                if isWhiteSpace c2 then space :: replaceRuns InRun rest
                else c :: replaceRuns Scan rest
            | [] => [c]
            end
          else c :: replaceRuns Scan rest
      end
  end.

Definition collapseWhiteSpace (s : jsstring) : jsstring := replaceRuns Scan s.

End JsString.

Import JsString.

Arguments lit s%_string.

(** ** The address clean-up (scraper.ts, lines 145-146)

    [address1 + (both fragments non-empty ? sep : empty) + address2]
    followed by [.trim().replace(/\s\s+/g, " ")].  [scraper.ts] writes the
    separator [" "]; a compiled variant of the script writes [", "]. *)

Module Address.

Definition joinFragments (sep address1 address2 : jsstring) : jsstring :=
  address1
    ++ (if negb (isEmpty address1) && negb (isEmpty address2) then sep else [])
    ++ address2.

Definition combineWith (sep address1 address2 : jsstring) : jsstring :=
  collapseWhiteSpace (trim (joinFragments sep address1 address2)).

(** The separator of [scraper.ts]. *)
Definition combineAddress : jsstring -> jsstring -> jsstring :=
  combineWith (lit " ").

(** The separator of the compiled comma variant. *)
Definition combineAddressComma : jsstring -> jsstring -> jsstring :=
  combineWith (lit ", ").

End Address.

Import Address.


(** ** Column location (scraper.ts, lines 111-134) *)

Module Locator.

(** The five column variables of [main]; [-1] means the column was not found. *)
Record HeaderMapping := {
  applicationNumberColumnIndex : Z;
  receivedDateColumnIndex : Z;
  descriptionColumnIndex : Z;
  addressColumnIndex1 : Z;
  addressColumnIndex2 : Z
}.

Definition absent : Z := (-1)%Z.

Definition noColumns : HeaderMapping :=
  {| applicationNumberColumnIndex := absent;
     receivedDateColumnIndex := absent;
     descriptionColumnIndex := absent;
     addressColumnIndex1 := absent;
     addressColumnIndex2 := absent |}.

(** The body of the [for] loop over [rows[0]]: an [if / else if] chain. *)
Definition locateStep (m : HeaderMapping) (columnIndex : Z) (cell : jsstring)
  : HeaderMapping :=
  if eqb cell (lit "ApplicationNumber") then
    {| applicationNumberColumnIndex := columnIndex;
       receivedDateColumnIndex := receivedDateColumnIndex m;
       descriptionColumnIndex := descriptionColumnIndex m;
       addressColumnIndex1 := addressColumnIndex1 m;
       addressColumnIndex2 := addressColumnIndex2 m |}
  else if eqb cell (lit "LodgementDate") then
    {| applicationNumberColumnIndex := applicationNumberColumnIndex m;
       receivedDateColumnIndex := columnIndex;
       descriptionColumnIndex := descriptionColumnIndex m;
       addressColumnIndex1 := addressColumnIndex1 m;
       addressColumnIndex2 := addressColumnIndex2 m |}
  else if eqb cell (lit "ApplicationDesc") then
    {| applicationNumberColumnIndex := applicationNumberColumnIndex m;
       receivedDateColumnIndex := receivedDateColumnIndex m;
       descriptionColumnIndex := columnIndex;
       addressColumnIndex1 := addressColumnIndex1 m;
       addressColumnIndex2 := addressColumnIndex2 m |}
  else if eqb cell (lit "PropertyAddress") then
    {| applicationNumberColumnIndex := applicationNumberColumnIndex m;
       receivedDateColumnIndex := receivedDateColumnIndex m;
       descriptionColumnIndex := descriptionColumnIndex m;
       addressColumnIndex1 := columnIndex;
       addressColumnIndex2 := addressColumnIndex2 m |}
  else if eqb cell (lit "PropertySuburbPostCode") then
    {| applicationNumberColumnIndex := applicationNumberColumnIndex m;
       receivedDateColumnIndex := receivedDateColumnIndex m;
       descriptionColumnIndex := descriptionColumnIndex m;
       addressColumnIndex1 := addressColumnIndex1 m;
       addressColumnIndex2 := columnIndex |}
  else m.

(** The loop from [columnIndex] on, over the cells that remain. *)
Fixpoint locateFrom (columnIndex : Z) (cells : list jsstring) (m : HeaderMapping)
  : HeaderMapping :=
  match cells with
  | [] => m
  | cell :: rest => locateFrom (columnIndex + 1) rest (locateStep m columnIndex cell)
  end.

Definition locateColumns (header : list jsstring) : HeaderMapping :=
  locateFrom 0 header noColumns.

(** Line 131: the test that makes [main] skip the CSV. *)
Definition mandatoryColumnMissing (m : HeaderMapping) : bool :=
  (applicationNumberColumnIndex m <? 0)%Z
  || ((addressColumnIndex1 m <? 0)%Z && (addressColumnIndex2 m <? 0)%Z).

(** The slots by name, for statements that range over all five. *)
Inductive field :=
| ApplicationNumber | LodgementDate | ApplicationDesc
| PropertyAddress | PropertySuburbPostCode.

Definition fieldName (f : field) : jsstring :=
  match f with
  | ApplicationNumber => lit "ApplicationNumber"
  | LodgementDate => lit "LodgementDate"
  | ApplicationDesc => lit "ApplicationDesc"
  | PropertyAddress => lit "PropertyAddress"
  | PropertySuburbPostCode => lit "PropertySuburbPostCode"
  end.

Definition slot (f : field) (m : HeaderMapping) : Z :=
  match f with
  | ApplicationNumber => applicationNumberColumnIndex m
  | LodgementDate => receivedDateColumnIndex m
  | ApplicationDesc => descriptionColumnIndex m
  | PropertyAddress => addressColumnIndex1 m
  | PropertySuburbPostCode => addressColumnIndex2 m
  end.

Definition present (f : field) (m : HeaderMapping) : Prop := slot f m <> absent.

End Locator.

Import Locator.

(** ** The received date (scraper.ts, lines 144 and 156)

    The script hands the trimmed cell to the date library and keeps
    year-month-day of a valid result.  The library is not part of the
    sources; its strict reading of the format is written out here after the
    specification (see [moment] below), the use the script makes of it is
    [normalizeDate]. *)

Module Moment.

Definition isDigit (c : char) : bool := ((48 <=? c) && (c <=? 57))%N.
Definition digitValue (c : char) : N := (c - 48)%N.

(** The fields of a date and time read under [D/MM/YYYY HH:mm:ss A]. *)
Record DateTime := {
  day : N; month : N; year : N;
  hour : N; minute : N; second : N;
  isPm : bool
}.

(** [D]: one or two digits, two when two are there. *)
Definition parseDay (s : jsstring) : option (N * jsstring) :=
  match s with
  | a :: rest =>
      if isDigit a then
        match rest with
        | b :: rest' =>
            if isDigit b then Some (10 * digitValue a + digitValue b, rest')%N
            else Some (digitValue a, rest)
        | [] => Some (digitValue a, rest)
        end
      else None
  | [] => None
  end.

(** [MM], [HH], [mm], [ss]: exactly two digits. *)
Definition parseTwoDigits (s : jsstring) : option (N * jsstring) :=
  match s with
  | a :: b :: rest =>
      if isDigit a && isDigit b
      then Some (10 * digitValue a + digitValue b, rest)%N
      else None
  | _ => None
  end.

(** [YYYY]: exactly four digits. *)
Definition parseFourDigits (s : jsstring) : option (N * jsstring) :=
  match s with
  | a :: b :: c :: d :: rest =>
      if isDigit a && isDigit b && isDigit c && isDigit d
      then Some (1000 * digitValue a + 100 * digitValue b
                 + 10 * digitValue c + digitValue d, rest)%N
      else None
  | _ => None
  end.

(** A separator of the format, written as it stands. *)
Definition parseLiteral (c : char) (s : jsstring) : option jsstring :=
  match s with
  | x :: rest => if char_eqb x c then Some rest else None
  | [] => None
  end.

(** [A]: the marker [AM] or [PM]. *)
Definition parseMeridiem (s : jsstring) : option (bool * jsstring) :=
  match s with
  | a :: m :: rest =>
      if char_eqb m 77%N then
        if char_eqb a 65%N then Some (false, rest)
        else if char_eqb a 80%N then Some (true, rest)
        else None
      else None
  | _ => None
  end.

Definition slash : char := 47%N.
Definition colon : char := 58%N.
Definition hyphen : char := 45%N.

Notation "' p <- c1 ;; c2" :=
  (match c1 with Some p => c2 | None => None end)
  (at level 61, p pattern, c1 at next level, right associativity).

(** The whole input against the whole format: nothing may be left over. *)
Definition parseStrict (s : jsstring) : option DateTime :=
  ' (d, s) <- parseDay s ;;
  ' s <- parseLiteral slash s ;;
  ' (mo, s) <- parseTwoDigits s ;;
  ' s <- parseLiteral slash s ;;
  ' (y, s) <- parseFourDigits s ;;
  ' s <- parseLiteral space s ;;
  ' (h, s) <- parseTwoDigits s ;;
  ' s <- parseLiteral colon s ;;
  ' (mi, s) <- parseTwoDigits s ;;
  ' s <- parseLiteral colon s ;;
  ' (se, s) <- parseTwoDigits s ;;
  ' s <- parseLiteral space s ;;
  ' (pm, s) <- parseMeridiem s ;;
  match s with
  | [] => Some {| day := d; month := mo; year := y;
                  hour := h; minute := mi; second := se; isPm := pm |}
  | _ :: _ => None
  end.

Definition isLeapYear (y : N) : bool :=
  ((y mod 4 =? 0) && negb (y mod 100 =? 0) || (y mod 400 =? 0))%N.

Definition daysInMonth (y mo : N) : N :=
  (if mo =? 2 then (if isLeapYear y then 29 else 28)
   else if (mo =? 4) || (mo =? 6) || (mo =? 9) || (mo =? 11) then 30
   else 31)%N.

Definition validFields (t : DateTime) : bool :=
  ((1 <=? month t) && (month t <=? 12)
   && (1 <=? day t) && (day t <=? daysInMonth (year t) (month t))
   && (hour t <=? 23) && (minute t <=? 59) && (second t <=? 59))%N.

(** Modelled from the spec: [moment(raw, "D/MM/YYYY HH:mm:ss A", true)] of the
    third-party library moment, which [scraper.ts] imports and which is not
    part of the sources.  What is missing is the strict parser and its
    validity flag.  Following the specification: the day has one or two
    digits, the month exactly two, the year exactly four, the three clock
    fields are two digits wide as the format writes them and are followed by
    the marker AM or PM; an absent value, an input that departs from the
    pattern anywhere, and a value that is no calendar date or clock time are
    all invalid.  [None] is an invalid moment. *)
Definition moment (raw : option jsstring) : option DateTime :=
  match raw with
  | None => None
  | Some s =>
      match parseStrict s with
      | Some t => if validFields t then Some t else None
      | None => None
      end
  end.

(** Decimal digits of [n] on [width] places, zero filled. *)
Fixpoint zeroFill (width : nat) (n : N) : jsstring :=
  match width with
  | O => []
  | S w => zeroFill w (n / 10) ++ [(48 + n mod 10)%N]
  end.

(** [.format("YYYY-MM-DD")] *)
Definition formatDate (t : DateTime) : jsstring :=
  zeroFill 4 (year t) ++ [hyphen] ++ zeroFill 2 (month t)
    ++ [hyphen] ++ zeroFill 2 (day t).

(** Line 156: [receivedDate.isValid() ? receivedDate.format("YYYY-MM-DD") : empty]
    on the moment of line 144. *)
Definition normalizeDate (raw : option jsstring) : jsstring :=
  match moment raw with
  | Some t => formatDate t
  | None => []
  end.

End Moment.

Import Moment.

(** ** The database (scraper.ts, lines 22-61) *)

Module Database.

(** A row of the table [data]; [council_reference] is its primary key. *)
Record StoredRow := {
  council_reference : jsstring;
  address : jsstring;
  description : jsstring;
  info_url : jsstring;
  comment_url : jsstring;
  date_scraped : jsstring;
  date_received : jsstring;
  on_notice_from : option jsstring;
  on_notice_to : option jsstring
}.

Definition Table := list StoredRow.

Definition hasKey (key : jsstring) (t : Table) : bool :=
  existsb (fun r => eqb (council_reference r) key) t.

Definition rowsWithKey (key : jsstring) (t : Table) : Table :=
  filter (fun r => eqb (council_reference r) key) t.

(** [insert or ignore into [data] values (...)]: a row whose key is already
    in the table is not written.  The second component is the statement's
    count of changed rows. *)
Definition insertOrIgnore (row : StoredRow) (t : Table) : Table * N :=
  if hasKey (council_reference row) t then (t, 0%N) else (t ++ [row], 1%N).

(** [insert or replace into [data] values (...)], the statement of an older
    compiled variant: the row with the same key is deleted first. *)
Definition insertOrReplace (row : StoredRow) (t : Table) : Table * N :=
  (filter (fun r => negb (eqb (council_reference r) (council_reference row))) t
     ++ [row], 1%N).

End Database.

(** ** The run: console, exceptions, and the state they are threaded through *)

Module Scraper.

Inductive error :=
| TypeError                          (* [.trim()] of [undefined] *)
| StorageError (code : jsstring).    (* the error sqlite3 hands to the callback *)

Inductive consoleLine :=
| ConsoleLog (message : jsstring)
| ConsoleError (e : error).

(** What a run can change: the table, the console, and how many statements
    have been handed to the storage layer. *)
Record World := {
  table : Database.Table;
  console : list consoleLine;
  statements : nat
}.

Inductive result (A : Type) :=
| Ok (a : A)
| Throw (e : error).
Arguments Ok {A} a.
Arguments Throw {A} e.

Definition M (A : Type) : Type := World -> World * result A.

Definition ret {A} (a : A) : M A := fun w => (w, Ok a).
Definition throw {A} (e : error) : M A := fun w => (w, Throw e).
Definition bind {A B} (c : M A) (k : A -> M B) : M B :=
  fun w =>
    match c w with
    | (w', Ok a) => k a w'
    | (w', Throw e) => (w', Throw e)
    end.
Definition liftResult {A} (r : result A) : M A := fun w => (w, r).

Definition consoleLog (message : jsstring) : M unit :=
  fun w => ({| table := table w;
               console := console w ++ [ConsoleLog message];
               statements := statements w |}, Ok tt).

Definition consoleError (e : error) : M unit :=
  fun w => ({| table := table w;
               console := console w ++ [ConsoleError e];
               statements := statements w |}, Ok tt).

Notation "x <- c1 ;; c2" := (bind c1 (fun x => c2))
  (at level 61, c1 at next level, right associativity).
Notation "c1 ;; c2" := (bind c1 (fun _ => c2))
  (at level 61, right associativity).

(** Pure code that can throw. *)
Definition bindResult {A B} (r : result A) (k : A -> result B) : result B :=
  match r with
  | Ok a => k a
  | Throw e => Throw e
  end.

Notation "x <-- r ;;; k" := (bindResult r (fun x => k))
  (at level 61, r at next level, right associativity).

(** The object literal handed to [insertRow]. *)
Record DevelopmentApplication := {
  applicationNumber : jsstring;
  address : jsstring;
  description : jsstring;
  informationUrl : jsstring;
  commentUrl : jsstring;
  scrapeDate : jsstring;
  receivedDate : jsstring
}.

Definition CommentUrl : jsstring := lit "mailto:Playford@playford.sa.gov.au".

Definition noDescription : jsstring := lit "No description provided".

Definition quote : char := 34%N.

(** The two template strings of [insertRow]. *)
Definition insertedMessage (da : DevelopmentApplication) : jsstring :=
  lit "    Inserted: application " ++ [quote] ++ applicationNumber da ++ [quote]
    ++ lit " with address " ++ [quote] ++ address da ++ [quote]
    ++ lit " and description " ++ [quote] ++ description da ++ [quote]
    ++ lit " into the database.".

Definition skippedMessage (da : DevelopmentApplication) : jsstring :=
  lit "    Skipped: application " ++ [quote] ++ applicationNumber da ++ [quote]
    ++ lit " with address " ++ [quote] ++ address da ++ [quote]
    ++ lit " and description " ++ [quote] ++ description da ++ [quote]
    ++ lit " because it was already present in the database.".

(** The nine values bound to the statement. *)
Definition toStoredRow (da : DevelopmentApplication) : Database.StoredRow :=
  {| Database.council_reference := applicationNumber da;
     Database.address := address da;
     Database.description := description da;
     Database.info_url := informationUrl da;
     Database.comment_url := commentUrl da;
     Database.date_scraped := scrapeDate da;
     Database.date_received := receivedDate da;
     Database.on_notice_from := None;
     Database.on_notice_to := None |}.

(** ** Reading a row (scraper.ts, lines 139-157) *)

Definition RawRow := list jsstring.

(** [row[i]]: [undefined] ([None]) when there is no such element. *)
Definition cellAt (row : RawRow) (i : Z) : option jsstring :=
  if (i <? 0)%Z then None else nth_error row (Z.to_nat i).

(** [row[i].trim()] *)
Definition trimmedCell (row : RawRow) (i : Z) : result jsstring :=
  match cellAt row i with
  | Some cell => Ok (trim cell)
  | None => Throw TypeError
  end.

(** [(i < 0) ? empty : row[i].trim()] *)
Definition optionalCell (row : RawRow) (i : Z) : result jsstring :=
  if (i <? 0)%Z then Ok [] else trimmedCell row i.

(** [(i < 0) ? null : row[i].trim()] *)
Definition optionalDateCell (row : RawRow) (i : Z) : result (option jsstring) :=
  if (i <? 0)%Z then Ok None
  else cell <-- trimmedCell row i ;;; Ok (Some cell).

(** The body of the row loop up to the call of [insertRow]: the record that
    is handed on, [None] when the [if] of line 148 is not taken, or the
    exception.  [today] is [moment().format("YYYY-MM-DD")]. *)
Definition extractRecord (m : HeaderMapping) (url today : jsstring) (row : RawRow)
  : result (option DevelopmentApplication) :=
  applicationNumber <-- trimmedCell row (applicationNumberColumnIndex m) ;;;
  address1 <-- optionalCell row (addressColumnIndex1 m) ;;;
  address2 <-- optionalCell row (addressColumnIndex2 m) ;;;
  description <-- optionalCell row (descriptionColumnIndex m) ;;;
  receivedRaw <-- optionalDateCell row (receivedDateColumnIndex m) ;;;
  let address := combineAddress address1 address2 in
  if negb (isEmpty applicationNumber) && negb (isEmpty address) then
    Ok (Some {| applicationNumber := applicationNumber;
                address := address;
                description :=
                  if isEmpty description then noDescription else description;
                informationUrl := url;
                commentUrl := CommentUrl;
                scrapeDate := today;
                receivedDate := normalizeDate receivedRaw |})
  else Ok None.

Section Run.

(** The storage layer may fail a statement: [storageFault n] is the error,
    if any, that sqlite3 reports for the statement run after [n] earlier
    ones.  A failed statement writes nothing. *)
Variable storageFault : nat -> option jsstring.

(** The calendar date of the run, as [moment().format("YYYY-MM-DD")]. *)
Variable today : jsstring.

(** [sqlStatement.run(values, callback)] *)
Definition runStatement (row : Database.StoredRow) : M N :=
  fun w =>
    match storageFault (statements w) with
    | Some code =>
        ({| table := table w;
            console := console w;
            statements := S (statements w) |}, Throw (StorageError code))
    | None =>
        let (t, changes) := Database.insertOrIgnore row (table w) in
        ({| table := t;
            console := console w;
            statements := S (statements w) |}, Ok changes)
    end.

(** [insertRow(database, developmentApplication)] with its callback: on an
    error, [console.error(error); reject(error)]. *)
Definition insertRow (da : DevelopmentApplication) : M unit :=
  fun w =>
    match runStatement (toStoredRow da) w with
    | (w', Throw e) => (consoleError e ;; throw e) w'
    | (w', Ok changes) =>
        (if (0 <? changes)%N then consoleLog (insertedMessage da)
         else consoleLog (skippedMessage da)) w'
    end.

(** One pass of the row loop. *)
Definition processRow (m : HeaderMapping) (url : jsstring) (row : RawRow) : M unit :=
  extracted <- liftResult (extractRecord m url today row) ;;
  match extracted with
  | Some da => insertRow da
  | None => ret tt
  end.

(** [for (rowIndex = 1; rowIndex < rows.length; rowIndex++)] *)
Fixpoint processRows (m : HeaderMapping) (url : jsstring) (rows : list RawRow)
  : M unit :=
  match rows with
  | [] => ret tt
  | row :: rest => processRow m url row ;; processRows m url rest
  end.

Definition couldNotParseMessage (url : jsstring) : jsstring :=
  lit "Could not parse any development applications from " ++ url ++ lit ".".

Definition retrievingMessage (url : jsstring) : jsstring :=
  lit "Retrieving: " ++ url.

(** The body of the loop over [selectedUrls], once the CSV of [url] has been
    retrieved and parsed into [rows]. *)
Definition processCsv (url : jsstring) (rows : list RawRow) : M unit :=
  consoleLog (retrievingMessage url) ;;
  match rows with
  | [] => ret tt
  | header :: dataRows =>
      let m := locateColumns header in
      if mandatoryColumnMissing m then consoleLog (couldNotParseMessage url)
      else processRows m url dataRows
  end.

(** [for (let url of selectedUrls)], each url with the rows of its CSV. *)
Fixpoint processSources (sources : list (jsstring * list RawRow)) : M unit :=
  match sources with
  | [] => ret tt
  | (url, rows) :: rest => processCsv url rows ;; processSources rest
  end.

(** Line 162: [main().then(() => console.log("Complete.")).catch(error =>
    console.error(error))], from the loop over the selected sources on. *)
Definition run (sources : list (jsstring * list RawRow)) : M unit :=
  fun w =>
    match processSources sources w with
    | (w', Ok _) => consoleLog (lit "Complete.") w'
    | (w', Throw e) => consoleError e w'
    end.

End Run.

Definition emptyWorld : World :=
  {| table := []; console := []; statements := 0 |}.

Definition noFault : nat -> option jsstring := fun _ => None.

End Scraper.

Import Scraper.

(** ** What the specification says, as predicates *)

Module Spec.

Definition allWhiteSpace (s : jsstring) : Prop :=
  Forall (fun c => isWhiteSpace c = true) s.

Definition noWhiteSpaceAtStart (s : jsstring) : Prop :=
  match s with
  | [] => True
  | c :: _ => isWhiteSpace c = false
  end.

Definition noWhiteSpaceAtEnd (s : jsstring) : Prop :=
  noWhiteSpaceAtStart (rev s).

(** [t] is [s] without its leading and trailing white space. *)
Definition isTrimOf (s t : jsstring) : Prop :=
  exists pre post,
    s = pre ++ t ++ post /\ allWhiteSpace pre /\ allWhiteSpace post
    /\ noWhiteSpaceAtStart t /\ noWhiteSpaceAtEnd t.

(** [r] is [s] with every maximal run of two or more white-space code units
    replaced by one space, and everything else as it was. *)
Inductive collapsesTo : jsstring -> jsstring -> Prop :=
| collapse_end : collapsesTo [] []
| collapse_other c s r :
    isWhiteSpace c = false -> collapsesTo s r -> collapsesTo (c :: s) (c :: r)
| collapse_single c s r :
    isWhiteSpace c = true -> noWhiteSpaceAtStart s -> collapsesTo s r ->
    collapsesTo (c :: s) (c :: r)
| collapse_run ws s r :
    allWhiteSpace ws -> 2 <= length ws -> noWhiteSpaceAtStart s ->
    collapsesTo s r -> collapsesTo (ws ++ s) (space :: r).

(** No two white-space code units follow each other. *)
Fixpoint noAdjacentWhiteSpace (s : jsstring) : Prop :=
  match s with
  | [] => True
  | c :: rest =>
      (isWhiteSpace c = true -> noWhiteSpaceAtStart rest)
      /\ noAdjacentWhiteSpace rest
  end.

(** The scan of the header for one name alone: the index of the last cell
    equal to [name], counted from [columnIndex], or [current] when there is
    none. *)
Fixpoint scanFor (name : jsstring) (columnIndex : Z) (cells : list jsstring)
  (current : Z) : Z :=
  match cells with
  | [] => current
  | cell :: rest =>
      scanFor name (columnIndex + 1) rest
        (if eqb cell name then columnIndex else current)
  end.

(** The world after one more line on the console. *)
Definition logged (line : consoleLine) (w : World) : World :=
  {| table := table w;
     console := console w ++ [line];
     statements := statements w |}.

(** The text the extractor works with for column [i] of [row]: the trimmed
    cell, or the empty string for an absent column. *)
Definition trimmedOrEmpty (row : RawRow) (i : Z) : jsstring :=
  match cellAt row i with
  | Some cell => trim cell
  | None => []
  end.

(** Column [i] can be read in [row]: it is absent, or the row has the cell. *)
Definition readable (row : RawRow) (i : Z) : Prop :=
  (i <? 0)%Z = true \/ exists cell, cellAt row i = Some cell.

(** All the cells a mapping asks for can be read in the row. *)
Definition allReadable (m : HeaderMapping) (row : RawRow) : Prop :=
  (exists cell, cellAt row (applicationNumberColumnIndex m) = Some cell)
  /\ readable row (addressColumnIndex1 m)
  /\ readable row (addressColumnIndex2 m)
  /\ readable row (descriptionColumnIndex m)
  /\ readable row (receivedDateColumnIndex m).

(** The raw date handed to the date normaliser. *)
Definition rawDate (row : RawRow) (i : Z) : option jsstring :=
  if (i <? 0)%Z then None else Some (trimmedOrEmpty row i).

(** The record line 149 builds from the trimmed cells. *)
Definition recordOf (m : HeaderMapping) (url today : jsstring) (row : RawRow)
  : DevelopmentApplication :=
  {| applicationNumber := trimmedOrEmpty row (applicationNumberColumnIndex m);
     address := combineAddress (trimmedOrEmpty row (addressColumnIndex1 m))
                  (trimmedOrEmpty row (addressColumnIndex2 m));
     description :=
       if isEmpty (trimmedOrEmpty row (descriptionColumnIndex m))
       then noDescription
       else trimmedOrEmpty row (descriptionColumnIndex m);
     informationUrl := url;
     commentUrl := CommentUrl;
     scrapeDate := today;
     receivedDate := normalizeDate (rawDate row (receivedDateColumnIndex m)) |}.

(** *** The date pattern of the specification *)

Definition allDigits (s : jsstring) : Prop :=
  Forall (fun c => isDigit c = true) s.

(** The number a run of decimal digits writes. *)
Definition numberOf (s : jsstring) : N :=
  fold_left (fun n c => (10 * n + digitValue c)%N) s 0%N.

(** The seven parts of a raw date. *)
Record DateText := {
  dayText : jsstring; monthText : jsstring; yearText : jsstring;
  hourText : jsstring; minuteText : jsstring; secondText : jsstring;
  markerText : jsstring
}.

(** day/month/year hour:minute:second marker *)
Definition render (p : DateText) : jsstring :=
  dayText p ++ [slash] ++ monthText p ++ [slash] ++ yearText p ++ [space]
    ++ hourText p ++ [colon] ++ minuteText p ++ [colon] ++ secondText p
    ++ [space] ++ markerText p.

(** The widths of the pattern: a day of one or two digits, a month of two,
    a year of four, two-digit clock fields, and AM or PM. *)
Definition wellFormed (p : DateText) : Prop :=
  allDigits (dayText p) /\ (length (dayText p) = 1 \/ length (dayText p) = 2)
  /\ allDigits (monthText p) /\ length (monthText p) = 2
  /\ allDigits (yearText p) /\ length (yearText p) = 4
  /\ allDigits (hourText p) /\ length (hourText p) = 2
  /\ allDigits (minuteText p) /\ length (minuteText p) = 2
  /\ allDigits (secondText p) /\ length (secondText p) = 2
  /\ (markerText p = lit "AM" \/ markerText p = lit "PM").

(** The parts name a day of the calendar and a time of the clock. *)
Definition validValues (p : DateText) : Prop :=
  (1 <= numberOf (monthText p) <= 12
   /\ 1 <= numberOf (dayText p)
      <= daysInMonth (numberOf (yearText p)) (numberOf (monthText p))
   /\ numberOf (hourText p) <= 23
   /\ numberOf (minuteText p) <= 59
   /\ numberOf (secondText p) <= 59)%N.

(** [s] conforms to the pattern and encodes a valid value. *)
Definition conforms (s : jsstring) : Prop :=
  exists p, wellFormed p /\ validValues p /\ s = render p.

(** The day on two places. *)
Definition twoPlaces (ds : jsstring) : jsstring :=
  match ds with
  | [d] => [48%N; d]
  | _ => ds
  end.

(** year-month-day, from the parts of the raw date *)
Definition canonicalDate (p : DateText) : jsstring :=
  yearText p ++ [hyphen] ++ monthText p ++ [hyphen] ++ twoPlaces (dayText p).

End Spec.

Import Spec.

(** ** Discovery and choice of the CSV files (scraper.ts, lines 84-100) *)

Module Discovery.

(** The loop over the anchors: an href is pushed unless [urls.some] finds
    it already there. *)
Fixpoint collectUrls (hrefs urls : list jsstring) : list jsstring :=
  match hrefs with
  | [] => urls
  | href :: rest =>
      collectUrls rest
        (if existsb (fun url => eqb url href) urls then urls
         else urls ++ [href])
  end.

Definition uniqueUrls (hrefs : list jsstring) : list jsstring :=
  collectUrls hrefs [].

(** [urls.pop()]: the last element, [undefined] on an empty array, and the
    array that is left. *)
Definition pop (urls : list jsstring) : option jsstring * list jsstring :=
  match rev urls with
  | [] => (None, [])
  | lastUrl :: before => (Some lastUrl, rev before)
  end.

(** Lines 98-100.  [getRandom] stands for the function of that name, whose
    result depends on [Math.random()]; [urls[i]] is [undefined] when there
    is no element [i]. *)
Definition selectUrls (getRandom : Z -> Z -> Z) (urls : list jsstring)
  : list (option jsstring) :=
  let (lastUrl, rest) := pop urls in
  lastUrl ::
    (if 1 <=? length rest
     then [cellAt rest (getRandom 0%Z (Z.of_nat (length rest)))]
     else []).

End Discovery.

Import Discovery.

(** ** Predicates for the properties of the run *)

Module Invariants.

(** The keys of a table, in row order. *)
Definition keys (t : Database.Table) : list jsstring :=
  map Database.council_reference t.

(** The row loop hands this row on to [insertRow]. *)
Definition emits (m : HeaderMapping) (url today : jsstring) (row : RawRow)
  : bool :=
  match extractRecord m url today row with
  | Ok (Some _) => true
  | _ => false
  end.

(** Column [i] of [row] holds nothing but white space, or is not there. *)
Definition blank (row : RawRow) (i : Z) : Prop :=
  match cellAt row i with
  | Some cell => allWhiteSpace cell
  | None => True
  end.

(** No white space at either end and no two white-space code units in a
    row. *)
Definition normalized (s : jsstring) : Prop :=
  noWhiteSpaceAtStart s /\ noWhiteSpaceAtEnd s /\ noAdjacentWhiteSpace s.

(** What holds of every row the script writes. *)
Definition wellStored (r : Database.StoredRow) : Prop :=
  Database.council_reference r <> []
  /\ noWhiteSpaceAtStart (Database.council_reference r)
  /\ noWhiteSpaceAtEnd (Database.council_reference r)
  /\ Database.address r <> []
  /\ normalized (Database.address r)
  /\ Database.description r <> []
  /\ Database.comment_url r = CommentUrl
  /\ Database.on_notice_from r = None
  /\ Database.on_notice_to r = None.

(** The console line is one of the two reports of [insertRow]. *)
Definition isSkipLine (line : consoleLine) : Prop :=
  exists da, line = ConsoleLog (skippedMessage da).

(** [da] is a record the row loop can hand to [insertRow]. *)
Definition emitted (da : DevelopmentApplication) : Prop :=
  exists m url today row, extractRecord m url today row = Ok (Some da).

(** The application number the extractor reads in [row]. *)
Definition rowKey (m : HeaderMapping) (row : RawRow) : jsstring :=
  trimmedOrEmpty row (applicationNumberColumnIndex m).

(** No recognised column name among the cells. *)
Definition unrecognized (cells : list jsstring) : Prop :=
  forall cell f, In cell cells -> cell <> fieldName f.

(** All rows of the CSV are as long as its header. *)
Definition rectangular (header : RawRow) (dataRows : list RawRow) : Prop :=
  Forall (fun row => length row = length header) dataRows.

End Invariants.

Import Invariants.

(** * Properties *)

(** ** Strings *)

Lemma char_eqb_eq (a b : char) : char_eqb a b = true <-> a = b.
Proof. unfold char_eqb. apply N.eqb_eq. Qed.

Lemma eqb_eq (a b : jsstring) : eqb a b = true <-> a = b.
Proof.
  revert b. induction a as [|x a IH]; intros [|y b]; simpl; split;
    try congruence; try reflexivity.
  - intros H. apply andb_true_iff in H as [Hx Ha].
    apply char_eqb_eq in Hx. apply IH in Ha. congruence.
  - intros H. injection H as -> ->. apply andb_true_iff. split.
    + now apply char_eqb_eq.
    + now apply IH.
Qed.

Lemma eqb_refl (a : jsstring) : eqb a a = true.
Proof. now apply eqb_eq. Qed.

Lemma eqb_neq (a b : jsstring) : eqb a b = false <-> a <> b.
Proof.
  split.
  - intros H E. apply eqb_eq in E. congruence.
  - intros H. destruct (eqb a b) eqn:E; [|reflexivity].
    apply eqb_eq in E. contradiction.
Qed.

Lemma isEmpty_true (s : jsstring) : isEmpty s = true <-> s = [].
Proof. destruct s; simpl; split; congruence. Qed.

Lemma isEmpty_false (s : jsstring) : isEmpty s = false <-> s <> [].
Proof. destruct s; simpl; split; congruence. Qed.

(** The leading white space that [trimStart] removes. *)
Lemma trimStart_split (s : jsstring) :
  exists pre, s = pre ++ trimStart s /\ allWhiteSpace pre
              /\ noWhiteSpaceAtStart (trimStart s).
Proof.
  induction s as [|c s (pre & E & Hpre & Hstart)]; simpl.
  - exists []. repeat split. constructor.
  - destruct (isWhiteSpace c) eqn:Hc.
    + exists (c :: pre). repeat split.
      * simpl. now f_equal.
      * now constructor.
      * exact Hstart.
    + exists []. repeat split; [constructor | exact Hc].
Qed.

Lemma trimStart_length (s : jsstring) : length (trimStart s) <= length s.
Proof.
  induction s as [|c s IH]; simpl; [lia|].
  destruct (isWhiteSpace c); simpl; lia.
Qed.

Lemma allWhiteSpace_rev (s : jsstring) : allWhiteSpace s -> allWhiteSpace (rev s).
Proof. unfold allWhiteSpace. apply Forall_rev. Qed.

Lemma trim_isTrimOf (s : jsstring) : isTrimOf s (trim s).
Proof.
  unfold trim, trimEnd.
  destruct (trimStart_split s) as (pre & E & Hpre & Hstart).
  set (t := trimStart s) in *.
  destruct (trimStart_split (rev t)) as (post & E' & Hpost & Hend).
  assert (Et : t = rev (trimStart (rev t)) ++ rev post).
  { rewrite <- rev_app_distr, <- E'. now rewrite rev_involutive. }
  exists pre, (rev post). repeat split.
  - rewrite <- Et. exact E.
  - exact Hpre.
  - now apply allWhiteSpace_rev.
  - destruct (rev (trimStart (rev t))) as [|c u] eqn:Eu; simpl; [trivial|].
    rewrite Et in Hstart. exact Hstart.
  - unfold noWhiteSpaceAtEnd. now rewrite rev_involutive.
Qed.

(** Inside a match, [replaceRuns] skips the rest of the run. *)
Lemma replaceRuns_InRun (s : jsstring) :
  replaceRuns InRun s = replaceRuns Scan (trimStart s).
Proof.
  induction s as [|c s IH]; simpl; [reflexivity|].
  destruct (isWhiteSpace c) eqn:Hc; [exact IH|].
  simpl. now rewrite Hc.
Qed.

Lemma collapseWhiteSpace_collapsesTo (s : jsstring) :
  collapsesTo s (collapseWhiteSpace s).
Proof.
  unfold collapseWhiteSpace.
  remember (length s) as n eqn:Hn.
  revert s Hn. induction n as [n IH] using lt_wf_ind. intros s Hn.
  destruct s as [|c rest]; simpl; [constructor|].
  destruct (isWhiteSpace c) eqn:Hc.
  - destruct rest as [|c2 rest2].
    + apply collapse_single; [exact Hc | exact I | constructor].
    + destruct (isWhiteSpace c2) eqn:Hc2.
      * rewrite replaceRuns_InRun.
        destruct (trimStart_split (c2 :: rest2)) as (pre & E & Hpre & Hstart).
        assert (Hlen : 1 <= length pre).
        { destruct pre; simpl in *; [|lia].
          rewrite <- E in Hstart. simpl in Hstart. congruence. }
        replace (c :: c2 :: rest2) with ((c :: pre) ++ trimStart (c2 :: rest2))
          by (rewrite <- app_comm_cons; now rewrite <- E).
        apply collapse_run.
        -- now constructor.
        -- simpl. lia.
        -- exact Hstart.
        -- eapply IH; [|reflexivity].
           pose proof (trimStart_length (c2 :: rest2)). simpl in *. lia.
      * apply collapse_single; [exact Hc | exact Hc2 |].
        eapply IH; [|reflexivity]. simpl in *. lia.
  - apply collapse_other; [exact Hc|].
    eapply IH; [|reflexivity]. simpl in *. lia.
Qed.

Lemma collapsesTo_start (s r : jsstring) :
  collapsesTo s r -> noWhiteSpaceAtStart s -> noWhiteSpaceAtStart r.
Proof.
  intros H. destruct H as [|c s r Hc H|c s r Hc Hs H|ws s r Hws Hlen Hs H];
    simpl; intros Hstart.
  - exact I.
  - exact Hc.
  - congruence.
  - destruct Hws as [|w ws Hw Hws]; simpl in *; [lia | congruence].
Qed.

Lemma collapsesTo_noAdjacent (s r : jsstring) :
  collapsesTo s r -> noAdjacentWhiteSpace r.
Proof.
  induction 1; simpl.
  - exact I.
  - split; [congruence | assumption].
  - split; [|assumption]. intros _. eapply collapsesTo_start; eassumption.
  - split; [|assumption]. intros _. eapply collapsesTo_start; eassumption.
Qed.

(** ** The address clean-up *)

Lemma joinFragments_both (sep a1 a2 : jsstring) :
  a1 <> [] -> a2 <> [] -> joinFragments sep a1 a2 = a1 ++ sep ++ a2.
Proof.
  intros H1 H2. unfold joinFragments.
  apply isEmpty_false in H1. apply isEmpty_false in H2.
  now rewrite H1, H2.
Qed.

Lemma joinFragments_either (sep a1 a2 : jsstring) :
  a1 = [] \/ a2 = [] -> joinFragments sep a1 a2 = a1 ++ a2.
Proof.
  intros [H|H]; unfold joinFragments; apply isEmpty_true in H; rewrite H;
    simpl; [reflexivity|]. now rewrite andb_false_r.
Qed.

(** C5: the address combiner joins the two fragments with one space, put in
    only when both are non-empty, trims the result and replaces every run of
    two or more white-space code units by one space; the five sample values
    of the specification come out as stated. *)
Theorem combineAddress_spec :
  (forall address1 address2 : jsstring,
      exists joined trimmed,
        (address1 <> [] /\ address2 <> [] ->
         joined = address1 ++ [space] ++ address2)
        /\ (address1 = [] \/ address2 = [] -> joined = address1 ++ address2)
        /\ isTrimOf joined trimmed
        /\ collapsesTo trimmed (combineAddress address1 address2)
        /\ noAdjacentWhiteSpace (combineAddress address1 address2))
  /\ combineAddress [] [] = []
  /\ combineAddress (lit "A") [] = lit "A"
  /\ combineAddress [] (lit "B") = lit "B"
  /\ combineAddress (lit "A") (lit "B") = lit "A B"
  /\ combineAddress (lit "A  ") (lit " B") = lit "A B".
Proof.
  split; [|repeat split; reflexivity].
  intros a1 a2.
  exists (joinFragments (lit " ") a1 a2), (trim (joinFragments (lit " ") a1 a2)).
  split; [|split; [|split; [|split]]].
  - intros [H1 H2]. now apply joinFragments_both.
  - apply joinFragments_either.
  - apply trim_isTrimOf.
  - apply collapseWhiteSpace_collapsesTo.
  - eapply collapsesTo_noAdjacent. apply collapseWhiteSpace_collapsesTo.
Qed.

(** The compiled comma variant differs on two non-empty fragments. *)
Lemma combineAddressComma_two_fragments :
  combineAddressComma (lit "A") (lit "B") = lit "A, B".
Proof. reflexivity. Qed.

(** ** Column location *)

Lemma jsstring_eq_dec (a b : jsstring) : {a = b} + {a <> b}.
Proof. apply list_eq_dec. apply N.eq_dec. Defined.

(** The [else if] chain sets a slot exactly on the cell that carries its
    name: the five names are different, so the order of the tests is
    immaterial. *)
Lemma slot_locateStep (f : field) (m : HeaderMapping) (i : Z) (cell : jsstring) :
  slot f (locateStep m i cell) = if eqb cell (fieldName f) then i else slot f m.
Proof.
  unfold locateStep.
  repeat match goal with
         | |- context [if eqb cell (lit ?n) then _ else _] =>
             let E := fresh "E" in
             destruct (eqb cell (lit n)) eqn:E;
             [apply eqb_eq in E; subst cell; destruct f; reflexivity|]
         end.
  destruct f; cbn [slot fieldName]; now rewrite ?E, ?E0, ?E1, ?E2, ?E3.
Qed.

Lemma slot_locateFrom (f : field) (cells : list jsstring) :
  forall (i : Z) (m : HeaderMapping),
    slot f (locateFrom i cells m) = scanFor (fieldName f) i cells (slot f m).
Proof.
  induction cells as [|cell rest IH]; intros i m; simpl; [reflexivity|].
  now rewrite IH, slot_locateStep.
Qed.

Lemma scanFor_spec (name : jsstring) (cells : list jsstring) :
  forall (i current : Z),
    (~ In name cells -> scanFor name i cells current = current)
    /\ (In name cells ->
        exists j, scanFor name i cells current = (i + Z.of_nat j)%Z
                  /\ nth_error cells j = Some name
                  /\ forall k, j < k -> nth_error cells k <> Some name).
Proof.
  induction cells as [|cell rest IH]; intros i current; simpl.
  - split; [reflexivity | contradiction].
  - destruct (IH (i + 1)%Z (if eqb cell name then i else current)) as [IHno IHyes].
    destruct (in_dec jsstring_eq_dec name rest) as [Hin|Hout].
    + assert (Hj : exists j,
                 scanFor name (i + 1) rest (if eqb cell name then i else current)
                 = (i + Z.of_nat (S j))%Z
                 /\ nth_error (cell :: rest) (S j) = Some name
                 /\ forall k, S j < k -> nth_error (cell :: rest) k <> Some name).
      { destruct (IHyes Hin) as (j & E & Hj & Hlast).
        exists j. repeat split.
        - rewrite E. lia.
        - exact Hj.
        - intros [|k] Hk; [lia|]. simpl. apply Hlast. lia. }
      split; [intros H; exfalso; apply H; now right|].
      intros _. destruct Hj as (j & ?). now exists (S j).
    + rewrite (IHno Hout).
      destruct (eqb cell name) eqn:E.
      * apply eqb_eq in E. subst cell.
        split; [intros H; exfalso; apply H; now left|].
        intros _. exists 0. repeat split.
        -- lia.
        -- intros [|k] Hk; [lia|]. simpl. intros Hn.
           apply Hout. eapply nth_error_In. exact Hn.
      * apply eqb_neq in E.
        split; [reflexivity|].
        intros [H|H]; [congruence | contradiction].
Qed.

Lemma slot_locateColumns (f : field) (header : list jsstring) :
  slot f (locateColumns header) = scanFor (fieldName f) 0 header absent.
Proof.
  unfold locateColumns. rewrite slot_locateFrom. now destruct f.
Qed.

(** A slot is the absent marker or the position of a cell with its name. *)
Lemma slot_cases (f : field) (header : list jsstring) :
  (~ In (fieldName f) header /\ slot f (locateColumns header) = absent)
  \/ (exists j, slot f (locateColumns header) = Z.of_nat j
                /\ nth_error header j = Some (fieldName f)
                /\ forall k, j < k -> nth_error header k <> Some (fieldName f)).
Proof.
  rewrite slot_locateColumns.
  destruct (scanFor_spec (fieldName f) header 0 absent) as [Hno Hyes].
  destruct (in_dec jsstring_eq_dec (fieldName f) header) as [Hin|Hout].
  - right. destruct (Hyes Hin) as (j & E & Hj & Hlast).
    exists j. now rewrite E.
  - left. split; [exact Hout | now apply Hno].
Qed.

Lemma slot_negative_iff_absent (f : field) (header : list jsstring) :
  (slot f (locateColumns header) <? 0)%Z = true
  <-> slot f (locateColumns header) = absent.
Proof.
  destruct (slot_cases f header) as [[_ E]|(j & E & _)]; rewrite E.
  - split; reflexivity.
  - unfold absent. rewrite Z.ltb_lt. lia.
Qed.

(** C6: the field locator compares every header cell, by equality of the
    strings as they stand, with the five recognised names; a slot whose name
    stands at position i holds the position of the last cell with that name,
    which is i or later, and a slot whose name stands nowhere holds -1.  A
    cell that differs from a name in case or by a blank does not count.  The
    locator is a total function: it has no exceptional outcome. *)
Theorem locateColumns_spec :
  (forall (header : list jsstring) (f : field),
      (forall i, nth_error header i = Some (fieldName f) ->
         exists j, slot f (locateColumns header) = Z.of_nat j
                   /\ i <= j
                   /\ nth_error header j = Some (fieldName f)
                   /\ forall k, j < k -> nth_error header k <> Some (fieldName f))
      /\ (~ In (fieldName f) header -> slot f (locateColumns header) = absent))
  /\ fieldName ApplicationNumber = lit "ApplicationNumber"
  /\ fieldName LodgementDate = lit "LodgementDate"
  /\ fieldName ApplicationDesc = lit "ApplicationDesc"
  /\ fieldName PropertyAddress = lit "PropertyAddress"
  /\ fieldName PropertySuburbPostCode = lit "PropertySuburbPostCode"
  /\ locateColumns [lit "applicationnumber"; lit " ApplicationNumber";
                    lit "LodgementDate "] = noColumns
  /\ slot ApplicationNumber
       (locateColumns [lit "ApplicationNumber"; lit "X"; lit "ApplicationNumber"])
     = 2%Z.
Proof.
  split; [|repeat split; reflexivity].
  intros header f. split.
  - intros i Hi.
    destruct (slot_cases f header) as [[Hout _]|(j & E & Hj & Hlast)].
    + exfalso. apply Hout. eapply nth_error_In. exact Hi.
    + exists j. repeat split; try assumption.
      destruct (Nat.le_gt_cases i j) as [Hle|Hgt]; [exact Hle|].
      exfalso. exact (Hlast i Hgt Hi).
  - intros Hout.
    destruct (slot_cases f header) as [[_ E]|(j & _ & Hj & _)]; [exact E|].
    exfalso. apply Hout. eapply nth_error_In. exact Hj.
Qed.

Lemma cellAt_of_nat (row : RawRow) (j : nat) :
  cellAt row (Z.of_nat j) = nth_error row j.
Proof.
  unfold cellAt.
  destruct (Z.ltb_spec (Z.of_nat j) 0) as [H|H]; [lia|].
  now rewrite Nat2Z.id.
Qed.

Lemma cellAt_in_bounds (row : RawRow) (j : nat) :
  j < length row -> exists cell, cellAt row (Z.of_nat j) = Some cell.
Proof.
  intros H. rewrite cellAt_of_nat.
  destruct (nth_error row j) as [cell|] eqn:E; [now exists cell|].
  apply nth_error_None in E. lia.
Qed.

(** A present slot of a located mapping, read in a row as long as the
    header, is a cell. *)
Lemma present_slot_cell (f : field) (header : list jsstring) (row : RawRow) :
  present f (locateColumns header) ->
  length header <= length row ->
  exists cell, cellAt row (slot f (locateColumns header)) = Some cell.
Proof.
  intros Hp Hlen.
  destruct (slot_cases f header) as [[_ E]|(j & E & Hj & _)]; [contradiction|].
  rewrite E. apply cellAt_in_bounds.
  assert (j < length header) by (apply nth_error_Some; congruence). lia.
Qed.

(** C10: every slot of a located mapping that is not -1 is an index into the
    header row, and the header cell there is the name of the slot; so in a
    row as long as the header the element read through a present slot
    exists, and trimming it does not throw. *)
Theorem located_slots_in_bounds (header : list jsstring) (f : field) :
  present f (locateColumns header) ->
  (0 <= slot f (locateColumns header) < Z.of_nat (length header))%Z
  /\ cellAt header (slot f (locateColumns header)) = Some (fieldName f)
  /\ forall row : RawRow,
      length row = length header ->
      exists cell,
        cellAt row (slot f (locateColumns header)) = Some cell
        /\ trimmedCell row (slot f (locateColumns header)) = Ok (trim cell).
Proof.
  intros Hp.
  destruct (slot_cases f header) as [[_ E]|(j & E & Hj & _)]; [contradiction|].
  assert (Hlt : j < length header) by (apply nth_error_Some; congruence).
  split; [rewrite E; lia|]. split.
  - now rewrite E, cellAt_of_nat.
  - intros row Hlen.
    destruct (present_slot_cell f header row Hp) as (cell & Hcell); [lia|].
    exists cell. split; [exact Hcell|].
    unfold trimmedCell. now rewrite Hcell.
Qed.

Lemma located_slots_in_bounds_witness :
  let header := [lit "ApplicationNumber"; lit "PropertyAddress";
                 lit "PropertySuburbPostCode"; lit "ApplicationDesc";
                 lit "LodgementDate"] in
  present LodgementDate (locateColumns header)
  /\ (0 <= slot LodgementDate (locateColumns header) < Z.of_nat (length header))%Z
  /\ cellAt header (slot LodgementDate (locateColumns header))
     = Some (fieldName LodgementDate).
Proof.
  intros header.
  assert (Hp : present LodgementDate (locateColumns header))
    by (unfold present; vm_compute; discriminate).
  split; [exact Hp|].
  destruct (located_slots_in_bounds header LodgementDate Hp) as (Hb & Hc & _).
  split; [exact Hb | exact Hc].
Defined.

(** ** The gate on the mandatory columns *)

Lemma mandatoryColumnMissing_iff (header : list jsstring) :
  mandatoryColumnMissing (locateColumns header) = false
  <-> present ApplicationNumber (locateColumns header)
      /\ (present PropertyAddress (locateColumns header)
          \/ present PropertySuburbPostCode (locateColumns header)).
Proof.
  unfold mandatoryColumnMissing, present.
  pose proof (slot_negative_iff_absent ApplicationNumber header) as Ha.
  pose proof (slot_negative_iff_absent PropertyAddress header) as H1.
  pose proof (slot_negative_iff_absent PropertySuburbPostCode header) as H2.
  cbn [slot] in *.
  destruct (applicationNumberColumnIndex (locateColumns header) <? 0)%Z;
    destruct (addressColumnIndex1 (locateColumns header) <? 0)%Z;
    destruct (addressColumnIndex2 (locateColumns header) <? 0)%Z;
    simpl; split; try discriminate; try reflexivity;
    try (intros [Hp [Hq|Hq]]; exfalso;
         first [apply Hp; now apply Ha | apply Hq; now apply H1
               | apply Hq; now apply H2]);
    intros _; (split; [intros E; apply Ha in E; discriminate|]);
    first [left; intros E; apply H1 in E; discriminate
          | right; intros E; apply H2 in E; discriminate].
Qed.

Lemma consoleLog_logged (message : jsstring) (w : World) :
  consoleLog message w = (logged (ConsoleLog message) w, Ok tt).
Proof. reflexivity. Qed.

Lemma consoleError_logged (e : error) (w : World) :
  consoleError e w = (logged (ConsoleError e) w, Ok tt).
Proof. reflexivity. Qed.

(** C7: after the columns have been located, the rows of the CSV are
    processed if and only if the application-number slot is present and one
    of the two address slots is; otherwise the CSV is skipped with one line
    on the console, nothing is written, no exception is raised, and the loop
    goes on with the next source. *)
Theorem mandatory_columns_gate
  (storageFault : nat -> option jsstring) (today url : jsstring)
  (header : list jsstring) (dataRows : list RawRow)
  (rest : list (jsstring * list RawRow)) (w : World) :
  let m := locateColumns header in
  let w1 := logged (ConsoleLog (retrievingMessage url)) w in
  let w2 := logged (ConsoleLog (couldNotParseMessage url)) w1 in
  (mandatoryColumnMissing m = false
   <-> present ApplicationNumber m
       /\ (present PropertyAddress m \/ present PropertySuburbPostCode m))
  /\ (mandatoryColumnMissing m = false ->
      processCsv storageFault today url (header :: dataRows) w
      = processRows storageFault today m url dataRows w1)
  /\ (mandatoryColumnMissing m = true ->
      processCsv storageFault today url (header :: dataRows) w = (w2, Ok tt)
      /\ table w2 = table w
      /\ statements w2 = statements w
      /\ processSources storageFault today ((url, header :: dataRows) :: rest) w
         = processSources storageFault today rest w2).
Proof.
  intros m w1 w2. split; [apply mandatoryColumnMissing_iff|]. split.
  - intros H. unfold processCsv, bind. rewrite consoleLog_logged.
    fold m. now rewrite H.
  - intros H.
    assert (E : processCsv storageFault today url (header :: dataRows) w
                = (w2, Ok tt)).
    { unfold processCsv, bind. rewrite consoleLog_logged. fold m.
      now rewrite H. }
    split; [exact E|]. split; [reflexivity|]. split; [reflexivity|].
    cbn [processSources]. unfold bind at 1. now rewrite E.
Qed.

Lemma mandatory_columns_gate_witness :
  let header := [lit "LodgementDate"; lit "PropertyAddress"] in
  let url := lit "http://example/a.csv" in
  mandatoryColumnMissing (locateColumns header) = true
  /\ processCsv noFault (lit "2020-03-01") url
       [header; [lit "1/02/2020 09:00:00 AM"; lit "1 Smith St"]] emptyWorld
     = (logged (ConsoleLog (couldNotParseMessage url))
          (logged (ConsoleLog (retrievingMessage url)) emptyWorld), Ok tt).
Proof.
  intros header url.
  assert (H : mandatoryColumnMissing (locateColumns header) = true)
    by reflexivity.
  split; [exact H|].
  exact (proj1 (proj2 (proj2 (mandatory_columns_gate noFault (lit "2020-03-01")
                                url header
                                [[lit "1/02/2020 09:00:00 AM"; lit "1 Smith St"]]
                                [] emptyWorld)) H)).
Defined.

(** ** Reading a row *)

Lemma cellAt_negative (row : RawRow) (i : Z) :
  (i <? 0)%Z = true -> cellAt row i = None.
Proof. intros H. unfold cellAt. now rewrite H. Qed.

Lemma trimmedCell_Some (row : RawRow) (i : Z) (cell : jsstring) :
  cellAt row i = Some cell -> trimmedCell row i = Ok (trimmedOrEmpty row i).
Proof. intros H. unfold trimmedCell, trimmedOrEmpty. now rewrite H. Qed.

Lemma trimmedCell_Ok (row : RawRow) (i : Z) (text : jsstring) :
  trimmedCell row i = Ok text ->
  exists cell, cellAt row i = Some cell /\ text = trimmedOrEmpty row i.
Proof.
  unfold trimmedCell, trimmedOrEmpty.
  destruct (cellAt row i) as [cell|]; [|discriminate].
  intros H. injection H as <-. now exists cell.
Qed.

Lemma optionalCell_readable (row : RawRow) (i : Z) :
  readable row i -> optionalCell row i = Ok (trimmedOrEmpty row i).
Proof.
  unfold optionalCell. intros [H|(cell & H)].
  - rewrite H. unfold trimmedOrEmpty. now rewrite cellAt_negative.
  - destruct (i <? 0)%Z eqn:E.
    + rewrite cellAt_negative in H by exact E. discriminate.
    + eapply trimmedCell_Some. exact H.
Qed.

Lemma optionalCell_Ok (row : RawRow) (i : Z) (text : jsstring) :
  optionalCell row i = Ok text -> readable row i /\ text = trimmedOrEmpty row i.
Proof.
  unfold optionalCell, readable. destruct (i <? 0)%Z eqn:E.
  - intros H. injection H as <-. split; [now left|].
    unfold trimmedOrEmpty. now rewrite cellAt_negative.
  - intros H. apply trimmedCell_Ok in H as (cell & Hc & ->).
    split; [right; now exists cell | reflexivity].
Qed.

Lemma optionalDateCell_readable (row : RawRow) (i : Z) :
  readable row i -> optionalDateCell row i = Ok (rawDate row i).
Proof.
  unfold optionalDateCell, rawDate. intros [H|(cell & H)].
  - now rewrite H.
  - destruct (i <? 0)%Z eqn:E; [reflexivity|].
    rewrite (trimmedCell_Some row i cell H). reflexivity.
Qed.

Lemma optionalDateCell_Ok (row : RawRow) (i : Z) (raw : option jsstring) :
  optionalDateCell row i = Ok raw -> readable row i /\ raw = rawDate row i.
Proof.
  unfold optionalDateCell, rawDate, readable. destruct (i <? 0)%Z eqn:E.
  - intros H. injection H as <-. split; [now left | reflexivity].
  - destruct (trimmedCell row i) as [text|e] eqn:Ht; simpl; [|discriminate].
    apply trimmedCell_Ok in Ht as (cell & Hc & ->).
    intros H. injection H as <-. split; [right; now exists cell | reflexivity].
Qed.

(** What [extractRecord] computes when every cell can be read. *)
Lemma extractRecord_readable (m : HeaderMapping) (url today : jsstring)
  (row : RawRow) :
  allReadable m row ->
  extractRecord m url today row
  = Ok (if negb (isEmpty (applicationNumber (recordOf m url today row)))
           && negb (isEmpty (address (recordOf m url today row)))
        then Some (recordOf m url today row) else None).
Proof.
  intros ((cell & Ha) & H1 & H2 & Hd & Hr). unfold extractRecord.
  rewrite (trimmedCell_Some _ _ _ Ha). cbn [bindResult].
  rewrite (optionalCell_readable _ _ H1). cbn [bindResult].
  rewrite (optionalCell_readable _ _ H2). cbn [bindResult].
  rewrite (optionalCell_readable _ _ Hd). cbn [bindResult].
  rewrite (optionalDateCell_readable _ _ Hr). cbn [bindResult].
  cbn [recordOf applicationNumber address].
  now destruct (negb _ && negb _).
Qed.

(** [extractRecord] returns without an exception only when every cell could
    be read. *)
Lemma extractRecord_Ok (m : HeaderMapping) (url today : jsstring)
  (row : RawRow) (outcome : option DevelopmentApplication) :
  extractRecord m url today row = Ok outcome -> allReadable m row.
Proof.
  unfold extractRecord, allReadable.
  destruct (trimmedCell row (applicationNumberColumnIndex m)) as [a|] eqn:Ea;
    cbn [bindResult]; [|discriminate].
  destruct (optionalCell row (addressColumnIndex1 m)) as [a1|] eqn:E1;
    cbn [bindResult]; [|discriminate].
  destruct (optionalCell row (addressColumnIndex2 m)) as [a2|] eqn:E2;
    cbn [bindResult]; [|discriminate].
  destruct (optionalCell row (descriptionColumnIndex m)) as [d|] eqn:Ed;
    cbn [bindResult]; [|discriminate].
  destruct (optionalDateCell row (receivedDateColumnIndex m)) as [r|] eqn:Er;
    cbn [bindResult]; [|discriminate].
  intros _.
  apply trimmedCell_Ok in Ea as (cell & Hc & _).
  apply optionalCell_Ok in E1 as [H1 _]. apply optionalCell_Ok in E2 as [H2 _].
  apply optionalCell_Ok in Ed as [Hd _]. apply optionalDateCell_Ok in Er as [Hr _].
  repeat split; try assumption. now exists cell.
Qed.

(** Under a located mapping that passed the gate, a row as long as the
    header has every cell the extractor reads. *)
Lemma allReadable_rectangular (header : list jsstring) (row : RawRow) :
  mandatoryColumnMissing (locateColumns header) = false ->
  length header <= length row ->
  allReadable (locateColumns header) row.
Proof.
  intros Hgate Hlen.
  assert (Hread : forall f, readable row (slot f (locateColumns header))).
  { intros f. unfold readable.
    destruct (slot f (locateColumns header) <? 0)%Z eqn:E; [now left|].
    right. apply present_slot_cell; [|exact Hlen].
    intros Habs. apply slot_negative_iff_absent in Habs. congruence. }
  apply mandatoryColumnMissing_iff in Hgate as [Hp _].
  split; [exact (present_slot_cell ApplicationNumber header row Hp Hlen)|].
  repeat split.
  - exact (Hread PropertyAddress).
  - exact (Hread PropertySuburbPostCode).
  - exact (Hread ApplicationDesc).
  - exact (Hread LodgementDate).
Qed.

Lemma extractRecord_Some (m : HeaderMapping) (url today : jsstring)
  (row : RawRow) (da : DevelopmentApplication) :
  extractRecord m url today row = Ok (Some da) ->
  da = recordOf m url today row
  /\ applicationNumber da <> [] /\ address da <> [].
Proof.
  intros H. pose proof (extractRecord_Ok _ _ _ _ _ H) as Hread.
  rewrite (extractRecord_readable m url today row Hread) in H.
  destruct (isEmpty (applicationNumber (recordOf m url today row))) eqn:Ea;
    destruct (isEmpty (address (recordOf m url today row))) eqn:Eb;
    simpl in H; try discriminate.
  injection H as <-. repeat split; now apply isEmpty_false.
Qed.

(** For a mapping and a row in which the application-number cell and the
    cell of every other present column exist: a record is emitted if and
    only if the trimmed application number and the combined address are
    both non-empty, and a row that yields none leaves the world as it
    was. *)
Lemma extractRecord_emits_iff
  (storageFault : nat -> option jsstring) (m : HeaderMapping)
  (url today : jsstring) (row : RawRow) (w : World) :
  allReadable m row ->
  let number := trimmedOrEmpty row (applicationNumberColumnIndex m) in
  let address := combineAddress (trimmedOrEmpty row (addressColumnIndex1 m))
                   (trimmedOrEmpty row (addressColumnIndex2 m)) in
  ((exists da, extractRecord m url today row = Ok (Some da))
   <-> number <> [] /\ address <> [])
  /\ (number <> [] /\ address <> [] ->
      extractRecord m url today row = Ok (Some (recordOf m url today row))
      /\ processRow storageFault today m url row w
         = insertRow storageFault (recordOf m url today row) w)
  /\ (number = [] \/ address = [] ->
      extractRecord m url today row = Ok None
      /\ processRow storageFault today m url row w = (w, Ok tt)).
Proof.
  intros Hread number address.
  pose proof (extractRecord_readable m url today row Hread) as E.
  cbn [recordOf applicationNumber Scraper.address] in E.
  fold number in E. fold address in E.
  assert (Hyes : number <> [] /\ address <> [] ->
                 extractRecord m url today row
                 = Ok (Some (recordOf m url today row))).
  { intros [Hn Ha]. apply isEmpty_false in Hn. apply isEmpty_false in Ha.
    now rewrite E, Hn, Ha. }
  assert (Hno : number = [] \/ address = [] ->
                extractRecord m url today row = Ok None).
  { intros [H|H]; apply isEmpty_true in H; rewrite E, H; simpl;
      [reflexivity | now rewrite andb_false_r]. }
  split; [split|split].
  - intros (da & Hda). apply extractRecord_Some in Hda as (-> & Hn & Ha).
    split; assumption.
  - intros H. eexists. now apply Hyes.
  - intros H. split; [now apply Hyes|].
    unfold processRow, bind, liftResult. now rewrite (Hyes H).
  - intros H. split; [now apply Hno|].
    unfold processRow, bind, liftResult. now rewrite (Hno H).
Qed.

(** C3: under the mapping located from a header that passed the test on
    the mandatory columns, and for every data row as long as that header,
    the record extractor emits a record if and only if the trimmed
    application number and the combined address are both non-empty; when
    either is empty the row yields no record, raises no exception and
    leaves the table, the console and the statement count as they were,
    whatever the other of the two holds. *)
Theorem record_emitted_iff_both_non_empty
  (storageFault : nat -> option jsstring) (header : list jsstring)
  (url today : jsstring) (row : RawRow) (w : World) :
  mandatoryColumnMissing (locateColumns header) = false ->
  length header <= length row ->
  let m := locateColumns header in
  let number := trimmedOrEmpty row (applicationNumberColumnIndex m) in
  let address := combineAddress (trimmedOrEmpty row (addressColumnIndex1 m))
                   (trimmedOrEmpty row (addressColumnIndex2 m)) in
  (exists cell, cellAt row (applicationNumberColumnIndex m) = Some cell
                /\ number = trim cell)
  /\ ((exists da, extractRecord m url today row = Ok (Some da))
      <-> number <> [] /\ address <> [])
  /\ (number <> [] /\ address <> [] ->
      extractRecord m url today row = Ok (Some (recordOf m url today row))
      /\ processRow storageFault today m url row w
         = insertRow storageFault (recordOf m url today row) w)
  /\ (number = [] \/ address = [] ->
      extractRecord m url today row = Ok None
      /\ processRow storageFault today m url row w = (w, Ok tt)).
Proof.
  intros Hgate Hlen m number address.
  pose proof (allReadable_rectangular header row Hgate Hlen) as Hread.
  fold m in Hread. split.
  - destruct Hread as ((cell & Hcell) & _). exists cell.
    split; [exact Hcell|]. unfold number, trimmedOrEmpty. now rewrite Hcell.
  - exact (extractRecord_emits_iff storageFault m url today row w Hread).
Qed.

Lemma record_emitted_iff_both_non_empty_witness :
  let header := [lit "ApplicationNumber"; lit "PropertyAddress";
                 lit "PropertySuburbPostCode"] in
  let m := locateColumns header in
  let noNumber := [lit "  "; lit "1 Smith St"; lit "Adelaide 5000"] in
  let noAddress := [lit "DA123"; lit " "; []] in
  (extractRecord m (lit "u") (lit "2020-03-01") noNumber = Ok None
   /\ processRow noFault (lit "2020-03-01") m (lit "u") noNumber emptyWorld
      = (emptyWorld, Ok tt))
  /\ (extractRecord m (lit "u") (lit "2020-03-01") noAddress = Ok None
      /\ processRow noFault (lit "2020-03-01") m (lit "u") noAddress emptyWorld
         = (emptyWorld, Ok tt)).
Proof.
  intros header m noNumber noAddress. split.
  - apply (record_emitted_iff_both_non_empty noFault header (lit "u")
             (lit "2020-03-01") noNumber emptyWorld eq_refl (le_n _)).
    left. reflexivity.
  - apply (record_emitted_iff_both_non_empty noFault header (lit "u")
             (lit "2020-03-01") noAddress emptyWorld eq_refl (le_n _)).
    right. reflexivity.
Defined.

(** Outside that setting a missing cell is a type error: the row loop reads
    every located cell before it tests anything. *)
Lemma extractRecord_missing_cell_throws :
  (let m := locateColumns [lit "ApplicationNumber"; lit "PropertyAddress"] in
   let row := [lit " "] in
   trimmedOrEmpty row (applicationNumberColumnIndex m) = []
   /\ extractRecord m (lit "u") (lit "2020-03-01") row = Throw TypeError
   /\ processRow noFault (lit "2020-03-01") m (lit "u") row emptyWorld
      = (emptyWorld, Throw TypeError))
  /\ (let m := locateColumns [lit "PropertyAddress"] in
      let row := [lit "1 Smith St"] in
      applicationNumberColumnIndex m = absent
      /\ extractRecord m (lit "u") (lit "2020-03-01") row = Throw TypeError).
Proof. repeat split. Qed.

(** C4: in every emitted record the description is the text
    [No description provided] when the trimmed description cell is empty or
    the description column is absent, and is the trimmed cell otherwise, so
    also when that cell reads the very same text. *)
Theorem description_default (m : HeaderMapping) (url today : jsstring)
  (row : RawRow) (da : DevelopmentApplication) :
  extractRecord m url today row = Ok (Some da) ->
  let source := trimmedOrEmpty row (descriptionColumnIndex m) in
  (source = [] -> description da = noDescription)
  /\ (source <> [] -> description da = source)
  /\ ((descriptionColumnIndex m < 0)%Z -> source = [])
  /\ (description da = noDescription <-> source = [] \/ source = noDescription)
  /\ noDescription = lit "No description provided".
Proof.
  intros H source. apply extractRecord_Some in H as (-> & _ & _).
  cbn [recordOf description]. fold source.
  split; [|split; [|split; [|split]]].
  - intros E. now rewrite E.
  - intros E. apply isEmpty_false in E. now rewrite E.
  - intros Hneg. unfold source, trimmedOrEmpty.
    rewrite cellAt_negative; [reflexivity|]. now apply Z.ltb_lt.
  - destruct (isEmpty source) eqn:E.
    + apply isEmpty_true in E. split; [now left | reflexivity].
    + apply isEmpty_false in E. split; [now right|].
      intros [F|F]; [contradiction | exact F].
  - reflexivity.
Qed.

Lemma description_default_witness :
  let m := locateColumns [lit "ApplicationNumber"; lit "PropertyAddress";
                          lit "ApplicationDesc"] in
  let row := [lit "DA1"; lit "1 Smith St"; lit "  "] in
  let da := recordOf m (lit "u") (lit "2020-03-01") row in
  extractRecord m (lit "u") (lit "2020-03-01") row = Ok (Some da)
  /\ description da = lit "No description provided".
Proof.
  intros m row da.
  assert (H : extractRecord m (lit "u") (lit "2020-03-01") row = Ok (Some da))
    by reflexivity.
  split; [exact H|].
  exact (proj1 (description_default m (lit "u") (lit "2020-03-01") row da H)
           eq_refl).
Defined.

(** ** The database gateway *)

Lemma hasKey_false_rowsWithKey (key : jsstring) (t : Database.Table) :
  Database.hasKey key t = false -> Database.rowsWithKey key t = [].
Proof.
  unfold Database.hasKey, Database.rowsWithKey.
  induction t as [|r t IH]; simpl; [reflexivity|].
  destruct (eqb (Database.council_reference r) key); simpl;
    [discriminate | exact IH].
Qed.

Lemma hasKey_app (key : jsstring) (t u : Database.Table) :
  Database.hasKey key (t ++ u) = Database.hasKey key t || Database.hasKey key u.
Proof. unfold Database.hasKey. apply existsb_app. Qed.

Lemma rowsWithKey_app (key : jsstring) (t u : Database.Table) :
  Database.rowsWithKey key (t ++ u)
  = Database.rowsWithKey key t ++ Database.rowsWithKey key u.
Proof. unfold Database.rowsWithKey. apply filter_app. Qed.

Lemma insertOrIgnore_new (row : Database.StoredRow) (t : Database.Table) :
  Database.hasKey (Database.council_reference row) t = false ->
  Database.insertOrIgnore row t = (t ++ [row], 1%N)
  /\ Database.hasKey (Database.council_reference row) (t ++ [row]) = true
  /\ Database.rowsWithKey (Database.council_reference row) (t ++ [row]) = [row].
Proof.
  intros H. unfold Database.insertOrIgnore. rewrite H.
  split; [reflexivity|]. split.
  - rewrite hasKey_app. simpl. rewrite eqb_refl. simpl. apply orb_true_r.
  - rewrite rowsWithKey_app, (hasKey_false_rowsWithKey _ _ H). simpl.
    now rewrite eqb_refl.
Qed.

Lemma insertOrIgnore_present (row : Database.StoredRow) (t : Database.Table) :
  Database.hasKey (Database.council_reference row) t = true ->
  Database.insertOrIgnore row t = (t, 0%N).
Proof. intros H. unfold Database.insertOrIgnore. now rewrite H. Qed.

(** [insertRow] when the storage layer accepts the statement. *)
Lemma insertRow_no_fault (storageFault : nat -> option jsstring)
  (da : DevelopmentApplication) (w : World) :
  storageFault (statements w) = None ->
  insertRow storageFault da w
  = (let (t, changes) := Database.insertOrIgnore (toStoredRow da) (table w) in
     ({| table := t;
         console := console w
                    ++ [ConsoleLog (if (0 <? changes)%N then insertedMessage da
                                    else skippedMessage da)];
         statements := S (statements w) |}, Ok tt)).
Proof.
  intros H. unfold insertRow, runStatement. rewrite H.
  destruct (Database.insertOrIgnore (toStoredRow da) (table w)) as [t changes].
  now destruct (0 <? changes)%N.
Qed.



(** The statement of the older compiled variant keeps the last record
    instead. *)
Lemma insertOrReplace_keeps_last (row1 row2 : Database.StoredRow) :
  Database.council_reference row1 = Database.council_reference row2 ->
  fst (Database.insertOrReplace row2
         (fst (Database.insertOrReplace row1 []))) = [row2].
Proof.
  intros H. simpl. rewrite H, eqb_refl. reflexivity.
Qed.

(** ** Storage errors *)

Lemma processRows_app (storageFault : nat -> option jsstring)
  (today : jsstring) (m : HeaderMapping) (url : jsstring)
  (before after : list RawRow) (w : World) :
  processRows storageFault today m url (before ++ after) w
  = match processRows storageFault today m url before w with
    | (w', Ok _) => processRows storageFault today m url after w'
    | (w', Throw e) => (w', Throw e)
    end.
Proof.
  revert w. induction before as [|row before IH]; intros w;
    [reflexivity|].
  cbn [app processRows]. unfold bind.
  destruct (processRow storageFault today m url row w) as [w' [[]|e]];
    [apply IH | reflexivity].
Qed.

Lemma processSources_app (storageFault : nat -> option jsstring)
  (today : jsstring) (earlier later : list (jsstring * list RawRow))
  (w : World) :
  processSources storageFault today (earlier ++ later) w
  = match processSources storageFault today earlier w with
    | (w', Ok _) => processSources storageFault today later w'
    | (w', Throw e) => (w', Throw e)
    end.
Proof.
  revert w. induction earlier as [|[url rows] earlier IH]; intros w;
    [reflexivity|].
  cbn [app processSources]. unfold bind.
  destruct (processCsv storageFault today url rows w) as [w' [[]|e]];
    [apply IH | reflexivity].
Qed.

(** C9: when the storage layer reports an error for the statement of a
    record, [insertRow] logs it and rejects with that error after this one
    statement, the table is as it was, the rows and the sources that remain
    are not processed, and the run ends by logging the error in place of
    the line [Complete.]. *)
Theorem storage_error_propagates
  (storageFault : nat -> option jsstring) (today : jsstring)
  (da : DevelopmentApplication) (w : World) (code : jsstring) :
  storageFault (statements w) = Some code ->
  let failed := {| table := table w;
                   console := console w ++ [ConsoleError (StorageError code)];
                   statements := S (statements w) |} in
  insertRow storageFault da w = (failed, Throw (StorageError code))
  /\ (forall m url before row rest w0,
         processRows storageFault today m url before w0 = (w, Ok tt) ->
         extractRecord m url today row = Ok (Some da) ->
         processRows storageFault today m url (before ++ row :: rest) w0
         = (failed, Throw (StorageError code)))
  /\ (forall earlier url rows later w0 wa,
         processSources storageFault today earlier w0 = (wa, Ok tt) ->
         processCsv storageFault today url rows wa
         = (failed, Throw (StorageError code)) ->
         processSources storageFault today (earlier ++ (url, rows) :: later) w0
         = (failed, Throw (StorageError code))
         /\ run storageFault today (earlier ++ (url, rows) :: later) w0
            = (logged (ConsoleError (StorageError code)) failed, Ok tt)).
Proof.
  intros Hfault failed.
  assert (Hins : insertRow storageFault da w
                 = (failed, Throw (StorageError code))).
  { unfold insertRow, runStatement. now rewrite Hfault. }
  split; [exact Hins|]. split.
  - intros m url before row rest w0 Hbefore Hrow.
    rewrite processRows_app, Hbefore. cbn [processRows]. unfold bind at 1.
    unfold processRow, bind, liftResult. now rewrite Hrow, Hins.
  - intros earlier url rows later w0 wa Hearlier Hcsv.
    assert (E : processSources storageFault today
                  (earlier ++ (url, rows) :: later) w0
                = (failed, Throw (StorageError code))).
    { rewrite processSources_app, Hearlier. cbn [processSources].
      unfold bind at 1. now rewrite Hcsv. }
    split; [exact E|]. unfold run. now rewrite E.
Qed.

Lemma storage_error_propagates_witness :
  let fault := fun n : nat =>
                 match n with 1 => Some (lit "SQLITE_FULL") | _ => None end in
  let header : RawRow := [lit "ApplicationNumber"; lit "PropertyAddress"] in
  let rows : list RawRow := [header; [lit "DA1"; lit "1 Smith St"];
               [lit "DA2"; lit "2 Smith St"]; [lit "DA3"; lit "3 Smith St"]] in
  let final := fst (run fault (lit "2020-03-01")
                      [(lit "a.csv", rows); (lit "b.csv", rows)] emptyWorld) in
  length (table final) = 1
  /\ statements final = 2
  /\ last (console final) (ConsoleLog [])
     = ConsoleError (StorageError (lit "SQLITE_FULL")).
Proof.
  intros fault header rows final.
  set (da2 := recordOf (locateColumns header) (lit "a.csv") (lit "2020-03-01")
                [lit "DA2"; lit "2 Smith St"]).
  set (w1 := fst (processRows fault (lit "2020-03-01") (locateColumns header)
                    (lit "a.csv") [[lit "DA1"; lit "1 Smith St"]]
                    (logged (ConsoleLog (retrievingMessage (lit "a.csv")))
                       emptyWorld))).
  destruct (storage_error_propagates fault (lit "2020-03-01") da2 w1
              (lit "SQLITE_FULL") eq_refl) as (_ & _ & Hrun).
  destruct (Hrun [] (lit "a.csv") rows [(lit "b.csv", rows)] emptyWorld
              emptyWorld eq_refl eq_refl) as [_ E].
  unfold final. cbn [app] in E. rewrite E.
  repeat split.
Defined.

(** ** The received date *)

Lemma isDigit_bounds (c : char) : isDigit c = true <-> (48 <= c <= 57)%N.
Proof.
  unfold isDigit. rewrite andb_true_iff, !N.leb_le. reflexivity.
Qed.

Lemma numberOf_two (a b : char) :
  numberOf [a; b] = (10 * digitValue a + digitValue b)%N.
Proof. unfold numberOf. cbn [fold_left]. lia. Qed.

Lemma numberOf_four (a b c d : char) :
  numberOf [a; b; c; d]
  = (1000 * digitValue a + 100 * digitValue b + 10 * digitValue c
     + digitValue d)%N.
Proof. unfold numberOf. cbn [fold_left]. lia. Qed.

Lemma numberOf_one (a : char) : numberOf [a] = digitValue a.
Proof. unfold numberOf. cbn [fold_left]. lia. Qed.

Lemma zeroFill_two (a b : char) :
  isDigit a = true -> isDigit b = true ->
  zeroFill 2 (10 * digitValue a + digitValue b) = [a; b].
Proof.
  intros Ha Hb. apply isDigit_bounds in Ha, Hb. unfold digitValue.
  cbn [zeroFill app].
  assert (E1 : ((10 * (a - 48) + (b - 48)) / 10 = a - 48)%N).
  { symmetry. apply N.div_unique with (r := (b - 48)%N); lia. }
  assert (E2 : ((10 * (a - 48) + (b - 48)) mod 10 = b - 48)%N).
  { symmetry. apply N.mod_unique with (q := (a - 48)%N); lia. }
  assert (E3 : ((a - 48) mod 10 = a - 48)%N) by (apply N.mod_small; lia).
  rewrite E2, E1, E3. f_equal; [lia|]. f_equal. lia.
Qed.

Lemma zeroFill_one (a : char) :
  isDigit a = true -> zeroFill 2 (digitValue a) = [48%N; a].
Proof.
  intros Ha. apply isDigit_bounds in Ha. unfold digitValue.
  cbn [zeroFill app].
  assert (E1 : ((a - 48) / 10 = 0)%N) by (apply N.div_small; lia).
  assert (E2 : ((a - 48) mod 10 = a - 48)%N) by (apply N.mod_small; lia).
  rewrite E1, E2. change (48 + 0 mod 10)%N with 48%N.
  replace (48 + (a - 48))%N with a by lia. reflexivity.
Qed.

Lemma zeroFill_four (a b c d : char) :
  isDigit a = true -> isDigit b = true -> isDigit c = true ->
  isDigit d = true ->
  zeroFill 4 (1000 * digitValue a + 100 * digitValue b + 10 * digitValue c
              + digitValue d)
  = [a; b; c; d].
Proof.
  intros Ha Hb Hc Hd. apply isDigit_bounds in Ha, Hb, Hc, Hd.
  unfold digitValue.
  set (n := (1000 * (a - 48) + 100 * (b - 48) + 10 * (c - 48) + (d - 48))%N).
  cbn [zeroFill app].
  assert (E0 : (n mod 10 = d - 48)%N).
  { symmetry.
    apply N.mod_unique with (q := (100 * (a - 48) + 10 * (b - 48) + (c - 48))%N);
      unfold n; lia. }
  assert (E1 : (n / 10 = 100 * (a - 48) + 10 * (b - 48) + (c - 48))%N).
  { symmetry. apply N.div_unique with (r := (d - 48)%N); unfold n; lia. }
  rewrite E0, E1.
  set (n1 := (100 * (a - 48) + 10 * (b - 48) + (c - 48))%N).
  assert (F0 : (n1 mod 10 = c - 48)%N).
  { symmetry. apply N.mod_unique with (q := (10 * (a - 48) + (b - 48))%N);
      unfold n1; lia. }
  assert (F1 : (n1 / 10 = 10 * (a - 48) + (b - 48))%N).
  { symmetry. apply N.div_unique with (r := (c - 48)%N); unfold n1; lia. }
  rewrite F0, F1.
  assert (G0 : ((10 * (a - 48) + (b - 48)) mod 10 = b - 48)%N).
  { symmetry. apply N.mod_unique with (q := (a - 48)%N); lia. }
  assert (G1 : ((10 * (a - 48) + (b - 48)) / 10 = a - 48)%N).
  { symmetry. apply N.div_unique with (r := (b - 48)%N); lia. }
  rewrite G0, G1.
  assert (K0 : ((a - 48) mod 10 = a - 48)%N) by (apply N.mod_small; lia).
  rewrite K0.
  repeat (f_equal; try lia).
Qed.

(** *** What each step of the parser accepts *)

Ltac conjuncts := repeat match goal with |- _ /\ _ => split end.

Lemma parseDay_Some (s : jsstring) (d : N) (r : jsstring) :
  parseDay s = Some (d, r) ->
  exists ds, allDigits ds /\ (length ds = 1 \/ length ds = 2)
             /\ s = ds ++ r /\ d = numberOf ds /\ zeroFill 2 d = twoPlaces ds.
Proof.
  unfold parseDay. destruct s as [|a rest]; [discriminate|].
  destruct (isDigit a) eqn:Ha; [|discriminate].
  destruct rest as [|b rest'].
  - intros H. injection H as <- <-. exists [a]. conjuncts.
    + now repeat constructor.
    + now left.
    + reflexivity.
    + now rewrite numberOf_one.
    + now apply zeroFill_one.
  - destruct (isDigit b) eqn:Hb; intros H; injection H as <- <-.
    + exists [a; b]. conjuncts.
      * now repeat constructor.
      * now right.
      * reflexivity.
      * now rewrite numberOf_two.
      * now apply zeroFill_two.
    + exists [a]. conjuncts.
      * now repeat constructor.
      * now left.
      * reflexivity.
      * now rewrite numberOf_one.
      * now apply zeroFill_one.
Qed.

Lemma parseTwoDigits_Some (s : jsstring) (n : N) (r : jsstring) :
  parseTwoDigits s = Some (n, r) ->
  exists ds, allDigits ds /\ length ds = 2
             /\ s = ds ++ r /\ n = numberOf ds /\ zeroFill 2 n = ds.
Proof.
  unfold parseTwoDigits. destruct s as [|a [|b rest]]; try discriminate.
  destruct (isDigit a) eqn:Ha; destruct (isDigit b) eqn:Hb; try discriminate.
  cbn [andb]. intros H. injection H as <- <-.
  exists [a; b]. conjuncts.
  - now repeat constructor.
  - reflexivity.
  - reflexivity.
  - now rewrite numberOf_two.
  - now apply zeroFill_two.
Qed.

Lemma parseFourDigits_Some (s : jsstring) (n : N) (r : jsstring) :
  parseFourDigits s = Some (n, r) ->
  exists ds, allDigits ds /\ length ds = 4
             /\ s = ds ++ r /\ n = numberOf ds /\ zeroFill 4 n = ds.
Proof.
  unfold parseFourDigits.
  destruct s as [|a [|b [|c [|d rest]]]]; try discriminate.
  destruct (isDigit a) eqn:Ha; destruct (isDigit b) eqn:Hb;
    destruct (isDigit c) eqn:Hc; destruct (isDigit d) eqn:Hd;
    try discriminate.
  cbn [andb]. intros H. injection H as <- <-.
  exists [a; b; c; d]. conjuncts.
  - now repeat constructor.
  - reflexivity.
  - reflexivity.
  - now rewrite numberOf_four.
  - now apply zeroFill_four.
Qed.

Lemma parseLiteral_Some (c : char) (s r : jsstring) :
  parseLiteral c s = Some r -> s = c :: r.
Proof.
  unfold parseLiteral. destruct s as [|x rest]; [discriminate|].
  destruct (char_eqb x c) eqn:E; [|discriminate].
  apply char_eqb_eq in E. intros H. injection H as <-. now subst.
Qed.

Lemma parseMeridiem_Some (s : jsstring) (pm : bool) (r : jsstring) :
  parseMeridiem s = Some (pm, r) ->
  exists marker, (marker = lit "AM" \/ marker = lit "PM") /\ s = marker ++ r.
Proof.
  unfold parseMeridiem. destruct s as [|a [|m rest]]; try discriminate.
  destruct (char_eqb m 77%N) eqn:Em; [|discriminate].
  apply char_eqb_eq in Em. subst m.
  destruct (char_eqb a 65%N) eqn:Ea.
  - apply char_eqb_eq in Ea. subst a. intros H. injection H as <- <-.
    exists (lit "AM"). split; [now left | reflexivity].
  - destruct (char_eqb a 80%N) eqn:Ep; [|discriminate].
    apply char_eqb_eq in Ep. subst a. intros H. injection H as <- <-.
    exists (lit "PM"). split; [now right | reflexivity].
Qed.

(** An accepted input has the shape of the pattern, and the fields read
    from it are the numbers its parts write. *)
Lemma parseStrict_Some (s : jsstring) (t : DateTime) :
  parseStrict s = Some t ->
  exists p, wellFormed p /\ s = render p
            /\ day t = numberOf (dayText p)
            /\ month t = numberOf (monthText p)
            /\ year t = numberOf (yearText p)
            /\ hour t = numberOf (hourText p)
            /\ minute t = numberOf (minuteText p)
            /\ second t = numberOf (secondText p)
            /\ formatDate t = canonicalDate p.
Proof.
  unfold parseStrict.
  destruct (parseDay s) as [[d s1]|] eqn:E1; [|discriminate].
  destruct (parseLiteral slash s1) as [s2|] eqn:E2; [|discriminate].
  destruct (parseTwoDigits s2) as [[mo s3]|] eqn:E3; [|discriminate].
  destruct (parseLiteral slash s3) as [s4|] eqn:E4; [|discriminate].
  destruct (parseFourDigits s4) as [[y s5]|] eqn:E5; [|discriminate].
  destruct (parseLiteral space s5) as [s6|] eqn:E6; [|discriminate].
  destruct (parseTwoDigits s6) as [[h s7]|] eqn:E7; [|discriminate].
  destruct (parseLiteral colon s7) as [s8|] eqn:E8; [|discriminate].
  destruct (parseTwoDigits s8) as [[mi s9]|] eqn:E9; [|discriminate].
  destruct (parseLiteral colon s9) as [s10|] eqn:E10; [|discriminate].
  destruct (parseTwoDigits s10) as [[se s11]|] eqn:E11; [|discriminate].
  destruct (parseLiteral space s11) as [s12|] eqn:E12; [|discriminate].
  destruct (parseMeridiem s12) as [[pm s13]|] eqn:E13; [|discriminate].
  destruct s13 as [|x s13]; [|discriminate].
  intros H. injection H as <-.
  apply parseDay_Some in E1 as (ds & Hds & Lds & -> & -> & Fd).
  apply parseLiteral_Some in E2 as ->.
  apply parseTwoDigits_Some in E3 as (ms & Hms & Lms & -> & -> & Fm).
  apply parseLiteral_Some in E4 as ->.
  apply parseFourDigits_Some in E5 as (ys & Hys & Lys & -> & -> & Fy).
  apply parseLiteral_Some in E6 as ->.
  apply parseTwoDigits_Some in E7 as (hs & Hhs & Lhs & -> & -> & _).
  apply parseLiteral_Some in E8 as ->.
  apply parseTwoDigits_Some in E9 as (mis & Hmis & Lmis & -> & -> & _).
  apply parseLiteral_Some in E10 as ->.
  apply parseTwoDigits_Some in E11 as (ses & Hses & Lses & -> & -> & _).
  apply parseLiteral_Some in E12 as ->.
  apply parseMeridiem_Some in E13 as (marker & Hmarker & ->).
  exists {| dayText := ds; monthText := ms; yearText := ys; hourText := hs;
            minuteText := mis; secondText := ses; markerText := marker |}.
  split; [unfold wellFormed; cbn [dayText monthText yearText hourText
                                    minuteText secondText markerText]; tauto|].
  split; [unfold render; cbn [dayText monthText yearText hourText minuteText
                               secondText markerText app];
          now rewrite app_nil_r|].
  conjuncts; try reflexivity.
  unfold formatDate, canonicalDate.
  cbn [day month year dayText monthText yearText]. now rewrite Fd, Fm, Fy.
Qed.

Lemma validFields_iff (t : DateTime) :
  validFields t = true
  <-> (1 <= month t <= 12
       /\ 1 <= day t <= daysInMonth (year t) (month t)
       /\ hour t <= 23 /\ minute t <= 59 /\ second t <= 59)%N.
Proof.
  unfold validFields. rewrite !andb_true_iff, !N.leb_le. tauto.
Qed.

Lemma moment_Some (s : jsstring) (t : DateTime) :
  moment (Some s) = Some t ->
  exists p, wellFormed p /\ validValues p /\ s = render p
            /\ formatDate t = canonicalDate p.
Proof.
  unfold moment. destruct (parseStrict s) as [t'|] eqn:E; [|discriminate].
  destruct (validFields t') eqn:V; [|discriminate].
  intros H. injection H as <-.
  apply parseStrict_Some in E
    as (p & Hwf & -> & Ed & Em & Ey & Eh & Emi & Es & Ef).
  apply validFields_iff in V.
  exists p. conjuncts; try assumption; try reflexivity.
  unfold validValues. rewrite <- ?Ed, <- ?Em, <- ?Ey, <- ?Eh, <- ?Emi, <- ?Es.
  tauto.
Qed.

(** *** What the parser does on an input of the pattern *)

Lemma parseDay_two (a b : char) (r : jsstring) :
  isDigit a = true -> isDigit b = true ->
  parseDay (a :: b :: r) = Some (numberOf [a; b], r).
Proof.
  intros Ha Hb. unfold parseDay. now rewrite Ha, Hb, numberOf_two.
Qed.

Lemma parseDay_one (a : char) (r : jsstring) :
  isDigit a = true ->
  parseDay (a :: slash :: r) = Some (numberOf [a], slash :: r).
Proof.
  intros Ha. unfold parseDay. rewrite Ha, numberOf_one.
  now change (isDigit slash) with false.
Qed.

Lemma parseTwoDigits_digits (a b : char) (r : jsstring) :
  isDigit a = true -> isDigit b = true ->
  parseTwoDigits (a :: b :: r) = Some (numberOf [a; b], r).
Proof.
  intros Ha Hb. unfold parseTwoDigits. now rewrite Ha, Hb, numberOf_two.
Qed.

Lemma parseFourDigits_digits (a b c d : char) (r : jsstring) :
  isDigit a = true -> isDigit b = true -> isDigit c = true ->
  isDigit d = true ->
  parseFourDigits (a :: b :: c :: d :: r) = Some (numberOf [a; b; c; d], r).
Proof.
  intros Ha Hb Hc Hd. unfold parseFourDigits.
  now rewrite Ha, Hb, Hc, Hd, numberOf_four.
Qed.

Lemma parseLiteral_same (c : char) (r : jsstring) :
  parseLiteral c (c :: r) = Some r.
Proof.
  unfold parseLiteral.
  assert (E : char_eqb c c = true) by now apply char_eqb_eq.
  now rewrite E.
Qed.

Lemma digits_one_or_two (ds : jsstring) :
  allDigits ds -> length ds = 1 \/ length ds = 2 ->
  (exists a, ds = [a] /\ isDigit a = true)
  \/ (exists a b, ds = [a; b] /\ isDigit a = true /\ isDigit b = true).
Proof.
  intros H [L|L].
  - left. destruct ds as [|a [|]]; try discriminate.
    exists a. split; [reflexivity|]. now inversion H.
  - right. destruct ds as [|a [|b [|]]]; try discriminate.
    exists a, b. split; [reflexivity|].
    inversion H as [|? ? Ha H']. inversion H' as [|? ? Hb _]. now split.
Qed.

Lemma digits_two (ds : jsstring) :
  allDigits ds -> length ds = 2 ->
  exists a b, ds = [a; b] /\ isDigit a = true /\ isDigit b = true.
Proof.
  intros H L.
  destruct (digits_one_or_two ds H (or_intror L))
    as [(a & -> & _)|Hab]; [discriminate | exact Hab].
Qed.

Lemma digits_four (ds : jsstring) :
  allDigits ds -> length ds = 4 ->
  exists a b c d,
    ds = [a; b; c; d] /\ isDigit a = true /\ isDigit b = true
    /\ isDigit c = true /\ isDigit d = true.
Proof.
  intros H L. destruct ds as [|a [|b [|c [|d [|]]]]]; try discriminate.
  exists a, b, c, d. split; [reflexivity|].
  pose proof (Forall_inv H) as Ha.
  pose proof (Forall_inv (Forall_inv_tail H)) as Hb.
  pose proof (Forall_inv (Forall_inv_tail (Forall_inv_tail H))) as Hc.
  pose proof (Forall_inv (Forall_inv_tail (Forall_inv_tail (Forall_inv_tail H))))
    as Hd.
  now conjuncts.
Qed.

Lemma parseStrict_render (p : DateText) :
  wellFormed p ->
  parseStrict (render p)
  = Some {| day := numberOf (dayText p); month := numberOf (monthText p);
            year := numberOf (yearText p); hour := numberOf (hourText p);
            minute := numberOf (minuteText p);
            second := numberOf (secondText p);
            isPm := eqb (markerText p) (lit "PM") |}.
Proof.
  destruct p as [ds ms ys hs mis ses marker]. unfold wellFormed, render.
  cbn [dayText monthText yearText hourText minuteText secondText markerText].
  intros (Hd & Ld & Hm & Lm & Hy & Ly & Hh & Lh & Hmi & Lmi & Hs & Ls & Hmk).
  destruct (digits_two ms Hm Lm) as (m1 & m2 & -> & Hm1 & Hm2).
  destruct (digits_four ys Hy Ly) as (y1 & y2 & y3 & y4 & -> & Hy1 & Hy2 & Hy3 & Hy4).
  destruct (digits_two hs Hh Lh) as (h1 & h2 & -> & Hh1 & Hh2).
  destruct (digits_two mis Hmi Lmi) as (i1 & i2 & -> & Hi1 & Hi2).
  destruct (digits_two ses Hs Ls) as (s1 & s2 & -> & Hs1 & Hs2).
  assert (Htail : forall d0 rest0,
             parseDay rest0 = Some (d0, slash :: [m1; m2] ++ [slash]
                 ++ [y1; y2; y3; y4] ++ [space] ++ [h1; h2] ++ [colon]
                 ++ [i1; i2] ++ [colon] ++ [s1; s2] ++ [space] ++ marker) ->
             parseStrict rest0
             = Some {| day := d0; month := numberOf [m1; m2];
                       year := numberOf [y1; y2; y3; y4];
                       hour := numberOf [h1; h2]; minute := numberOf [i1; i2];
                       second := numberOf [s1; s2];
                       isPm := eqb marker (lit "PM") |}).
  { intros d0 rest0 E. unfold parseStrict. rewrite E. cbn [app].
    rewrite parseLiteral_same, (parseTwoDigits_digits m1 m2 _ Hm1 Hm2).
    rewrite parseLiteral_same,
      (parseFourDigits_digits y1 y2 y3 y4 _ Hy1 Hy2 Hy3 Hy4).
    rewrite parseLiteral_same, (parseTwoDigits_digits h1 h2 _ Hh1 Hh2).
    rewrite parseLiteral_same, (parseTwoDigits_digits i1 i2 _ Hi1 Hi2).
    rewrite parseLiteral_same, (parseTwoDigits_digits s1 s2 _ Hs1 Hs2).
    rewrite parseLiteral_same.
    destruct Hmk as [-> | ->]; reflexivity. }
  destruct (digits_one_or_two ds Hd Ld)
    as [(a & -> & Ha)|(a & b & -> & Ha & Hb)]; apply Htail.
  - exact (parseDay_one a _ Ha).
  - exact (parseDay_two a b _ Ha Hb).
Qed.

Lemma formatDate_render (p : DateText) :
  wellFormed p ->
  formatDate {| day := numberOf (dayText p); month := numberOf (monthText p);
                year := numberOf (yearText p); hour := numberOf (hourText p);
                minute := numberOf (minuteText p);
                second := numberOf (secondText p);
                isPm := eqb (markerText p) (lit "PM") |}
  = canonicalDate p.
Proof.
  destruct p as [ds ms ys hs mis ses marker].
  unfold wellFormed, canonicalDate, formatDate.
  cbn [dayText monthText yearText hourText minuteText secondText markerText
       day month year].
  intros (Hd & Ld & Hm & Lm & Hy & Ly & _).
  destruct (digits_two ms Hm Lm) as (m1 & m2 & -> & Hm1 & Hm2).
  destruct (digits_four ys Hy Ly)
    as (y1 & y2 & y3 & y4 & -> & Hy1 & Hy2 & Hy3 & Hy4).
  rewrite numberOf_four, (zeroFill_four y1 y2 y3 y4 Hy1 Hy2 Hy3 Hy4).
  rewrite numberOf_two, (zeroFill_two m1 m2 Hm1 Hm2).
  destruct (digits_one_or_two ds Hd Ld)
    as [(a & -> & Ha)|(a & b & -> & Ha & Hb)].
  - now rewrite numberOf_one, (zeroFill_one a Ha).
  - now rewrite numberOf_two, (zeroFill_two a b Ha Hb).
Qed.

Lemma normalizeDate_render (p : DateText) :
  wellFormed p -> validValues p ->
  normalizeDate (Some (render p)) = canonicalDate p.
Proof.
  intros Hwf Hval. unfold normalizeDate, moment.
  rewrite (parseStrict_render p Hwf).
  match goal with
  | |- context [validFields ?t] =>
      assert (V : validFields t = true) by (apply validFields_iff; exact Hval)
  end.
  rewrite V. now apply formatDate_render.
Qed.

Lemma normalizeDate_nonconforming (raw : option jsstring) :
  (forall s, raw = Some s -> ~ conforms s) -> normalizeDate raw = [].
Proof.
  intros H. unfold normalizeDate.
  destruct (moment raw) as [t|] eqn:E; [|reflexivity].
  destruct raw as [s|]; [|discriminate].
  exfalso. apply (H s eq_refl).
  apply moment_Some in E as (p & Hwf & Hval & -> & _).
  now exists p.
Qed.

(** C2: the date normaliser returns the empty string for an absent input and
    for every string that is not of the form day/month/year
    hour:minute:second AM-or-PM (day of one or two digits, month of two,
    year of four, clock fields of two) naming a valid date and time; for a
    string of that form it returns year-month-day with the day on two
    places.  The sample values of the specification come out as stated. *)
Theorem normalizeDate_spec :
  (forall raw : option jsstring,
      (forall s, raw = Some s -> ~ conforms s) -> normalizeDate raw = [])
  /\ (forall p : DateText,
         wellFormed p -> validValues p ->
         normalizeDate (Some (render p)) = canonicalDate p)
  /\ normalizeDate (Some (lit "5/03/2018 12:00:00 AM")) = lit "2018-03-05"
  /\ normalizeDate (Some (lit "05/03/2018 12:00:00 AM")) = lit "2018-03-05"
  /\ normalizeDate (Some (lit "2018-03-05")) = []
  /\ normalizeDate (Some (lit "5/13/2018 12:00:00 AM")) = []
  /\ normalizeDate (Some []) = []
  /\ normalizeDate None = [].
Proof.
  split; [exact normalizeDate_nonconforming|].
  split; [exact normalizeDate_render|].
  repeat split.
Qed.

(** ** The end-to-end scenario *)

(** C1, as amended: for the header row ApplicationNumber, PropertyAddress,
    PropertySuburbPostCode, ApplicationDesc, LodgementDate and the one data
    row DA123, 1 Smith St, Adelaide 5000, New shed, 1/02/2020 9:00:00 AM,
    column location followed by extraction emits exactly one record, with
    application number DA123, address 1 Smith St Adelaide 5000, description
    New shed and an empty received date, the hour of the raw date having one
    digit; with the hour written 09 the received date is 2020-02-01. *)
Theorem end_to_end_scenario (url today : jsstring) :
  let header := [lit "ApplicationNumber"; lit "PropertyAddress";
                 lit "PropertySuburbPostCode"; lit "ApplicationDesc";
                 lit "LodgementDate"] in
  let row := [lit "DA123"; lit "1 Smith St"; lit "Adelaide 5000";
              lit "New shed"; lit "1/02/2020 9:00:00 AM"] in
  let row09 := [lit "DA123"; lit "1 Smith St"; lit "Adelaide 5000";
                lit "New shed"; lit "1/02/2020 09:00:00 AM"] in
  let record := fun received =>
    {| applicationNumber := lit "DA123";
       address := lit "1 Smith St Adelaide 5000";
       description := lit "New shed";
       informationUrl := url;
       commentUrl := CommentUrl;
       scrapeDate := today;
       receivedDate := received |} in
  mandatoryColumnMissing (locateColumns header) = false
  /\ extractRecord (locateColumns header) url today row = Ok (Some (record []))
  /\ table (fst (run noFault today [(url, [header; row])] emptyWorld))
     = [toStoredRow (record [])]
  /\ extractRecord (locateColumns header) url today row09
     = Ok (Some (record (lit "2020-02-01")))
  /\ table (fst (run noFault today [(url, [header; row09])] emptyWorld))
     = [toStoredRow (record (lit "2020-02-01"))].
Proof. repeat split. Qed.

(** C1, as first stated, fails: the record emitted for the data row with the
    raw date 1/02/2020 9:00:00 AM does not carry the received date
    2020-02-01. *)
Lemma end_to_end_received_date_differs :
  let header := [lit "ApplicationNumber"; lit "PropertyAddress";
                 lit "PropertySuburbPostCode"; lit "ApplicationDesc";
                 lit "LodgementDate"] in
  let row := [lit "DA123"; lit "1 Smith St"; lit "Adelaide 5000";
              lit "New shed"; lit "1/02/2020 9:00:00 AM"] in
  let final := fst (run noFault (lit "2020-03-01") [(lit "u", [header; row])]
                      emptyWorld) in
  map Database.date_received (table final) = [[]]
  /\ map Database.date_received (table final) <> [lit "2020-02-01"].
Proof.
  intros header row final. split; [reflexivity|].
  vm_compute. discriminate.
Qed.

(** * Further properties *)

(** ** Normal form of the address *)

Lemma trimStart_allWhiteSpace (s : jsstring) :
  allWhiteSpace s -> trimStart s = [].
Proof.
  induction 1 as [|c s Hc _ IH]; simpl; [reflexivity|]. now rewrite Hc.
Qed.

Lemma trimStart_fixed (s : jsstring) :
  noWhiteSpaceAtStart s -> trimStart s = s.
Proof. destruct s as [|c s]; simpl; [reflexivity|]. now intros ->. Qed.

Lemma trim_fixed (s : jsstring) :
  noWhiteSpaceAtStart s -> noWhiteSpaceAtEnd s -> trim s = s.
Proof.
  intros Hs He. unfold trim, trimEnd.
  rewrite (trimStart_fixed s Hs), (trimStart_fixed (rev s) He).
  apply rev_involutive.
Qed.

Lemma allWhiteSpace_app (s t : jsstring) :
  allWhiteSpace (s ++ t) <-> allWhiteSpace s /\ allWhiteSpace t.
Proof. unfold allWhiteSpace. apply Forall_app. Qed.

Lemma trim_nil_iff (s : jsstring) : trim s = [] <-> allWhiteSpace s.
Proof.
  split.
  - intros E. destruct (trim_isTrimOf s) as (pre & post & Es & Hpre & Hpost & _).
    rewrite E in Es. rewrite Es. apply allWhiteSpace_app. now split.
  - intros H. unfold trim, trimEnd. now rewrite (trimStart_allWhiteSpace s H).
Qed.

Lemma trim_normal (s : jsstring) :
  noWhiteSpaceAtStart (trim s) /\ noWhiteSpaceAtEnd (trim s).
Proof.
  destruct (trim_isTrimOf s) as (pre & post & _ & _ & _ & Hs & He).
  now split.
Qed.

Lemma collapseWhiteSpace_fixed (s : jsstring) :
  noAdjacentWhiteSpace s -> collapseWhiteSpace s = s.
Proof.
  unfold collapseWhiteSpace.
  induction s as [|c rest IH]; [reflexivity|].
  intros [Hc Hrest]. cbn [replaceRuns].
  destruct (isWhiteSpace c) eqn:Ec.
  - destruct rest as [|c2 rest2]; [reflexivity|].
    specialize (Hc eq_refl). simpl in Hc. rewrite Hc.
    now rewrite (IH Hrest).
  - now rewrite (IH Hrest).
Qed.

Lemma collapsesTo_nil (s r : jsstring) :
  collapsesTo s r -> r = [] -> s = [].
Proof. intros H. destruct H; [reflexivity | discriminate ..]. Qed.

Lemma collapsesTo_of_nil (s r : jsstring) :
  collapsesTo s r -> s = [] -> r = [].
Proof.
  intros H. destruct H as [| | |ws s r Hws Hlen _ _];
    [reflexivity | discriminate | discriminate |].
  intros E. apply app_eq_nil in E as [-> _]. simpl in Hlen. lia.
Qed.

Lemma noWhiteSpaceAtEnd_cons (c : char) (s : jsstring) :
  noWhiteSpaceAtEnd (c :: s)
  <-> (s = [] -> isWhiteSpace c = false) /\ (s <> [] -> noWhiteSpaceAtEnd s).
Proof.
  unfold noWhiteSpaceAtEnd. cbn [rev].
  destruct (rev s) as [|x u] eqn:E.
  - assert (s = []) as -> by (apply (f_equal (@rev char)) in E;
                              now rewrite rev_involutive in E).
    simpl. split; [intros H; split; [auto | congruence] | intros [H _]; auto].
  - assert (s <> []) by (intros ->; discriminate).
    simpl. split; [intros H'; split; [congruence | auto] | intros [_ H']; auto].
Qed.

Lemma noWhiteSpaceAtEnd_app (u s : jsstring) :
  s <> [] -> noWhiteSpaceAtEnd (u ++ s) <-> noWhiteSpaceAtEnd s.
Proof.
  intros Hs. unfold noWhiteSpaceAtEnd. rewrite rev_app_distr.
  destruct (rev s) as [|x v] eqn:E; [|reflexivity].
  exfalso. apply Hs. apply (f_equal (@rev char)) in E.
  now rewrite rev_involutive in E.
Qed.

Lemma collapsesTo_end (s r : jsstring) :
  collapsesTo s r -> noWhiteSpaceAtEnd s -> noWhiteSpaceAtEnd r.
Proof.
  induction 1 as [|c s r Hc H IH|c s r Hc Hs H IH|ws s r Hws Hlen Hs H IH].
  - trivial.
  - rewrite !noWhiteSpaceAtEnd_cons. intros [H1 H2]. split.
    + intros _. exact Hc.
    + intros Hr. apply IH, H2. intros E. apply Hr.
      exact (collapsesTo_of_nil s r H E).
  - rewrite !noWhiteSpaceAtEnd_cons. intros [H1 H2]. split.
    + intros E. apply H1. exact (collapsesTo_nil s r H E).
    + intros Hr. apply IH, H2. intros E. apply Hr.
      exact (collapsesTo_of_nil s r H E).
  - intros He.
    assert (Hne : s <> []).
    { intros ->. rewrite app_nil_r in He. unfold noWhiteSpaceAtEnd in He.
      apply allWhiteSpace_rev in Hws.
      destruct (rev ws) as [|x v] eqn:E.
      - apply (f_equal (@length char)) in E. rewrite length_rev in E.
        simpl in E. lia.
      - simpl in He. apply Forall_inv in Hws. congruence. }
    apply (noWhiteSpaceAtEnd_app ws s Hne) in He.
    apply noWhiteSpaceAtEnd_cons. split.
    + intros E. exfalso. apply Hne. exact (collapsesTo_nil s r H E).
    + intros _. now apply IH.
Qed.

Lemma combineWith_normalized (sep a1 a2 : jsstring) :
  normalized (combineWith sep a1 a2).
Proof.
  unfold combineWith.
  pose proof (collapseWhiteSpace_collapsesTo (trim (joinFragments sep a1 a2)))
    as Hc.
  destruct (trim_normal (joinFragments sep a1 a2)) as [Hs He].
  split; [|split].
  - eapply collapsesTo_start; eassumption.
  - eapply collapsesTo_end; eassumption.
  - eapply collapsesTo_noAdjacent; eassumption.
Qed.

Lemma combineWith_fixed (sep s : jsstring) :
  normalized s -> combineWith sep s [] = s /\ combineWith sep [] s = s.
Proof.
  intros (Hs & He & Ha). unfold combineWith, joinFragments.
  rewrite andb_false_r. cbn [isEmpty negb andb app]. rewrite app_nil_r.
  rewrite (trim_fixed s Hs He). split; now apply collapseWhiteSpace_fixed.
Qed.

(** X1: the combined address begins and ends with a code unit that is not
    white space and has no two white-space code units in a row; combining
    it again with an empty fragment, on either side, gives it back. *)
Theorem combineAddress_normal_form (address1 address2 : jsstring) :
  normalized (combineAddress address1 address2)
  /\ combineAddress (combineAddress address1 address2) []
     = combineAddress address1 address2
  /\ combineAddress [] (combineAddress address1 address2)
     = combineAddress address1 address2.
Proof.
  pose proof (combineWith_normalized (lit " ") address1 address2) as Hn.
  split; [exact Hn|]. now apply combineWith_fixed.
Qed.

(** X2: the combined address is empty exactly when both fragments consist
    of white space only. *)
Theorem combineAddress_empty_iff (address1 address2 : jsstring) :
  combineAddress address1 address2 = []
  <-> allWhiteSpace address1 /\ allWhiteSpace address2.
Proof.
  unfold combineAddress, combineWith.
  set (joined := joinFragments (lit " ") address1 address2).
  assert (Hj : allWhiteSpace joined
               <-> allWhiteSpace address1 /\ allWhiteSpace address2).
  { unfold joined, joinFragments. rewrite !allWhiteSpace_app.
    split; [tauto|]. intros [H1 H2]. repeat split; try assumption.
    destruct (negb (isEmpty address1) && negb (isEmpty address2));
      repeat constructor. }
  rewrite <- Hj, <- trim_nil_iff. split.
  - intros E. apply (collapsesTo_nil _ _ (collapseWhiteSpace_collapsesTo _) E).
  - intros ->. reflexivity.
Qed.

(** ** More on column location *)

Lemma locateStep_unrecognized (m : HeaderMapping) (i : Z) (cell : jsstring) :
  (forall f, cell <> fieldName f) -> locateStep m i cell = m.
Proof.
  intros H. unfold locateStep.
  pose proof (proj2 (eqb_neq cell _) (H ApplicationNumber)) as E1.
  pose proof (proj2 (eqb_neq cell _) (H LodgementDate)) as E2.
  pose proof (proj2 (eqb_neq cell _) (H ApplicationDesc)) as E3.
  pose proof (proj2 (eqb_neq cell _) (H PropertyAddress)) as E4.
  pose proof (proj2 (eqb_neq cell _) (H PropertySuburbPostCode)) as E5.
  cbn [fieldName] in *. now rewrite E1, E2, E3, E4, E5.
Qed.

Lemma locateFrom_unrecognized (cells : list jsstring) :
  unrecognized cells -> forall i m, locateFrom i cells m = m.
Proof.
  induction cells as [|cell rest IH]; intros H i m; [reflexivity|].
  cbn [locateFrom]. rewrite locateStep_unrecognized.
  - apply IH. intros c f Hc. apply H. now right.
  - intros f. apply H. now left.
Qed.

Lemma locateFrom_app (before after : list jsstring) :
  forall i m,
    locateFrom i (before ++ after) m
    = locateFrom (i + Z.of_nat (length before)) after (locateFrom i before m).
Proof.
  induction before as [|cell rest IH]; intros i m.
  - cbn [app locateFrom length]. now rewrite Z.add_0_r.
  - cbn [app locateFrom length]. rewrite IH. f_equal. lia.
Qed.

(** X3: columns whose headers are none of the five names, added after the
    others, change nothing in the mapping. *)
Theorem locateColumns_ignores_unrecognized (header extra : list jsstring) :
  unrecognized extra ->
  locateColumns (header ++ extra) = locateColumns header.
Proof.
  intros H. unfold locateColumns. rewrite locateFrom_app.
  now apply locateFrom_unrecognized.
Qed.

Lemma locateColumns_ignores_unrecognized_witness :
  locateColumns ([lit "ApplicationNumber"; lit "PropertyAddress"]
                   ++ [lit "Ward"; lit "applicationnumber"])
  = locateColumns [lit "ApplicationNumber"; lit "PropertyAddress"].
Proof.
  apply (locateColumns_ignores_unrecognized
           [lit "ApplicationNumber"; lit "PropertyAddress"]
           [lit "Ward"; lit "applicationnumber"]).
  intros cell f [<-|[<-|[]]]; destruct f; discriminate.
Defined.

Lemma fieldName_injective (f g : field) : fieldName f = fieldName g -> f = g.
Proof. destruct f, g; intros H; try reflexivity; discriminate H. Qed.

(** X4: two different fields are never located in the same column. *)
Theorem located_slots_distinct (header : list jsstring) (f g : field) :
  f <> g ->
  present f (locateColumns header) ->
  slot f (locateColumns header) <> slot g (locateColumns header).
Proof.
  intros Hfg Hp E.
  destruct (slot_cases f header) as [[_ Ef]|(j & Ef & Hj & _)];
    [contradiction|].
  destruct (slot_cases g header) as [[_ Eg]|(k & Eg & Hk & _)].
  - rewrite Ef, Eg in E. unfold absent in E. lia.
  - rewrite Ef, Eg in E. apply Nat2Z.inj in E. subst k.
    apply Hfg, fieldName_injective. congruence.
Qed.

Lemma located_slots_distinct_witness :
  let header := [lit "PropertyAddress"; lit "ApplicationNumber"] in
  slot ApplicationNumber (locateColumns header)
  <> slot PropertyAddress (locateColumns header).
Proof.
  intros header.
  apply (located_slots_distinct header ApplicationNumber PropertyAddress).
  - discriminate.
  - unfold present. vm_compute. discriminate.
Defined.

(** ** More on reading a row *)

Lemma trim_trim (s : jsstring) : trim (trim s) = trim s.
Proof. destruct (trim_normal s). now apply trim_fixed. Qed.

Lemma trimmedOrEmpty_nil_iff (row : RawRow) (i : Z) :
  trimmedOrEmpty row i = [] <-> blank row i.
Proof.
  unfold trimmedOrEmpty, blank. destruct (cellAt row i) as [cell|].
  - apply trim_nil_iff.
  - tauto.
Qed.

Lemma trimmedOrEmpty_allWhiteSpace (row : RawRow) (i : Z) :
  allWhiteSpace (trimmedOrEmpty row i) <-> blank row i.
Proof.
  rewrite <- trimmedOrEmpty_nil_iff. unfold trimmedOrEmpty.
  destruct (cellAt row i) as [cell|].
  - rewrite <- trim_nil_iff, trim_trim. reflexivity.
  - split; [reflexivity | constructor].
Qed.

Lemma combineWith_nil_iff (sep a1 a2 : jsstring) :
  allWhiteSpace sep ->
  combineWith sep a1 a2 = [] <-> allWhiteSpace a1 /\ allWhiteSpace a2.
Proof.
  intros Hsep. unfold combineWith.
  set (joined := joinFragments sep a1 a2).
  assert (Hj : allWhiteSpace joined <-> allWhiteSpace a1 /\ allWhiteSpace a2).
  { unfold joined, joinFragments. rewrite !allWhiteSpace_app.
    split; [tauto|]. intros [H1 H2]. repeat split; try assumption.
    destruct (negb (isEmpty a1) && negb (isEmpty a2));
      [exact Hsep | constructor]. }
  rewrite <- Hj, <- trim_nil_iff. split.
  - intros E. apply (collapsesTo_nil _ _ (collapseWhiteSpace_collapsesTo _) E).
  - intros ->. reflexivity.
Qed.

(** Whether a record is emitted, read off the row and the mapping alone. *)
Lemma emits_iff (m : HeaderMapping) (url today : jsstring) (row : RawRow) :
  allReadable m row ->
  emits m url today row = true
  <-> rowKey m row <> []
      /\ combineAddress (trimmedOrEmpty row (addressColumnIndex1 m))
           (trimmedOrEmpty row (addressColumnIndex2 m)) <> [].
Proof.
  intros Hread. unfold emits, rowKey.
  rewrite (extractRecord_readable m url today row Hread).
  cbn [recordOf applicationNumber Scraper.address].
  rewrite <- !isEmpty_false.
  destruct (isEmpty (trimmedOrEmpty row (applicationNumberColumnIndex m)));
    destruct (isEmpty (combineAddress _ _)); cbn; intuition congruence.
Qed.

Lemma emits_Some (m : HeaderMapping) (url today : jsstring) (row : RawRow) :
  emits m url today row = true
  <-> extractRecord m url today row = Ok (Some (recordOf m url today row)).
Proof.
  unfold emits. split.
  - destruct (extractRecord m url today row) as [[da|]|e] eqn:E;
      try discriminate.
    intros _. apply extractRecord_Some in E as (-> & _). reflexivity.
  - now intros ->.
Qed.

(** X5: for a row in which every needed cell exists, a record is emitted
    exactly when the application-number cell is not blank and the two
    address cells are not both blank or absent. *)
Theorem record_emitted_iff_cells_not_blank
  (m : HeaderMapping) (url today : jsstring) (row : RawRow) :
  allReadable m row ->
  (exists da, extractRecord m url today row = Ok (Some da))
  <-> ~ blank row (applicationNumberColumnIndex m)
      /\ ~ (blank row (addressColumnIndex1 m)
            /\ blank row (addressColumnIndex2 m)).
Proof.
  intros Hread.
  rewrite <- trimmedOrEmpty_nil_iff, <- !trimmedOrEmpty_allWhiteSpace.
  assert (Hsp : allWhiteSpace (lit " ")) by (repeat constructor).
  rewrite <- (combineWith_nil_iff (lit " ") _ _ Hsp).
  fold combineAddress. fold (rowKey m row).
  rewrite <- (emits_iff m url today row Hread), emits_Some.
  split.
  - intros (da & E). pose proof E as E'.
    apply extractRecord_Some in E' as (-> & _). exact E.
  - intros E. eexists. exact E.
Qed.

Lemma record_emitted_iff_cells_not_blank_witness :
  let m := locateColumns [lit "ApplicationNumber"; lit "PropertyAddress";
                          lit "PropertySuburbPostCode"] in
  let row := [lit "DA7"; lit "   "; lit " Elizabeth 5112 "] in
  exists da, extractRecord m (lit "u") (lit "2020-03-01") row = Ok (Some da).
Proof.
  intros m row.
  apply (record_emitted_iff_cells_not_blank m (lit "u") (lit "2020-03-01") row).
  - split; [eexists; reflexivity|].
    repeat split; try (right; eexists; reflexivity); left; reflexivity.
  - split.
    + intros H. vm_compute in H. apply Forall_inv in H. discriminate H.
    + intros [_ H]. vm_compute in H. apply Forall_inv_tail, Forall_inv in H.
      discriminate H.
Defined.

Lemma extractRecord_Throw (m : HeaderMapping) (url today : jsstring)
  (row : RawRow) (e : error) :
  extractRecord m url today row = Throw e -> e = TypeError.
Proof.
  assert (Hcell : forall i x, trimmedCell row i = Throw x -> x = TypeError).
  { intros i x. unfold trimmedCell.
    destruct (cellAt row i); [discriminate | congruence]. }
  assert (Hopt : forall i x, optionalCell row i = Throw x -> x = TypeError).
  { intros i x. unfold optionalCell.
    destruct (i <? 0)%Z; [discriminate | apply Hcell]. }
  unfold extractRecord.
  destruct (trimmedCell row (applicationNumberColumnIndex m)) eqn:Ea;
    cbn [bindResult]; [|intros H; injection H as <-; eapply Hcell; eassumption].
  destruct (optionalCell row (addressColumnIndex1 m)) eqn:E1;
    cbn [bindResult]; [|intros H; injection H as <-; eapply Hopt; eassumption].
  destruct (optionalCell row (addressColumnIndex2 m)) eqn:E2;
    cbn [bindResult]; [|intros H; injection H as <-; eapply Hopt; eassumption].
  destruct (optionalCell row (descriptionColumnIndex m)) eqn:Ed;
    cbn [bindResult]; [|intros H; injection H as <-; eapply Hopt; eassumption].
  unfold optionalDateCell.
  destruct (receivedDateColumnIndex m <? 0)%Z; cbn [bindResult].
  - destruct (negb _ && negb _); discriminate.
  - destruct (trimmedCell row (receivedDateColumnIndex m)) eqn:Er;
      cbn [bindResult];
      [|intros H; injection H as <-; eapply Hcell; eassumption].
    destruct (negb _ && negb _); discriminate.
Qed.

(** X6: the extractor throws exactly when the row lacks the
    application-number cell or the cell of another located column, and what
    it throws is a type error; the url and the date play no part. *)
Theorem extractRecord_throws_iff
  (m : HeaderMapping) (url today : jsstring) (row : RawRow) :
  (extractRecord m url today row = Throw TypeError <-> ~ allReadable m row)
  /\ (forall e, extractRecord m url today row = Throw e -> e = TypeError).
Proof.
  split; [|apply extractRecord_Throw]. split.
  - intros E Hread.
    rewrite (extractRecord_readable m url today row Hread) in E. discriminate.
  - intros Hno. destruct (extractRecord m url today row) as [o|e] eqn:E.
    + exfalso. apply Hno. eapply extractRecord_Ok. exact E.
    + now rewrite (extractRecord_Throw m url today row e E).
Qed.

(** ** What a run does to the world *)

Lemma insertRow_world (storageFault : nat -> option jsstring)
  (da : DevelopmentApplication) (w : World) :
  statements (fst (insertRow storageFault da w)) = S (statements w)
  /\ (exists line, console (fst (insertRow storageFault da w))
                   = console w ++ [line])
  /\ (table (fst (insertRow storageFault da w)) = table w
      \/ (Database.hasKey (applicationNumber da) (table w) = false
          /\ table (fst (insertRow storageFault da w))
             = table w ++ [toStoredRow da])).
Proof.
  unfold insertRow, runStatement, Database.insertOrIgnore.
  destruct (storageFault (statements w)) as [code|].
  - cbn. split; [reflexivity|]. split; [eexists; reflexivity | now left].
  - cbn [toStoredRow Database.council_reference].
    destruct (Database.hasKey (applicationNumber da) (table w)) eqn:E; cbn.
    + split; [reflexivity|]. split; [eexists; reflexivity | now left].
    + split; [reflexivity|]. split; [eexists; reflexivity | now right].
Qed.

Lemma insertRow_Ok_key (storageFault : nat -> option jsstring)
  (da : DevelopmentApplication) (w : World) :
  snd (insertRow storageFault da w) = Ok tt ->
  storageFault (statements w) = None
  /\ Database.hasKey (applicationNumber da)
       (table (fst (insertRow storageFault da w))) = true.
Proof.
  destruct (storageFault (statements w)) as [code|] eqn:F.
  - unfold insertRow, runStatement. rewrite F. discriminate.
  - intros _. split; [reflexivity|].
    rewrite (insertRow_no_fault storageFault da w F).
    destruct (Database.hasKey (Database.council_reference (toStoredRow da))
                (table w)) eqn:E.
    + rewrite (insertOrIgnore_present _ _ E). exact E.
    + destruct (insertOrIgnore_new _ _ E) as (-> & H & _). exact H.
Qed.

Lemma processRow_emits (storageFault : nat -> option jsstring)
  (today : jsstring) (m : HeaderMapping) (url : jsstring) (row : RawRow)
  (w : World) :
  emits m url today row = true ->
  processRow storageFault today m url row w
  = insertRow storageFault (recordOf m url today row) w.
Proof.
  intros H. apply emits_Some in H. unfold processRow, bind, liftResult.
  now rewrite H.
Qed.

Lemma processRow_cases (storageFault : nat -> option jsstring)
  (today : jsstring) (m : HeaderMapping) (url : jsstring) (row : RawRow)
  (w : World) :
  (emits m url today row = true
   /\ processRow storageFault today m url row w
      = insertRow storageFault (recordOf m url today row) w)
  \/ (emits m url today row = false
      /\ extractRecord m url today row = Ok None
      /\ processRow storageFault today m url row w = (w, Ok tt))
  \/ (emits m url today row = false
      /\ extractRecord m url today row = Throw TypeError
      /\ processRow storageFault today m url row w = (w, Throw TypeError)).
Proof.
  destruct (emits m url today row) eqn:E.
  - left. split; [reflexivity | now apply processRow_emits].
  - right. unfold emits in E. unfold processRow, bind, liftResult.
    destruct (extractRecord m url today row) as [[da|]|e] eqn:Ex;
      try discriminate.
    + left. now repeat split.
    + right. rewrite (extractRecord_Throw m url today row e Ex). now repeat split.
Qed.

Section Transitions.

(** A relation between the world before and the world after that every
    step of the run respects. *)
Variable R : World -> World -> Prop.
Hypothesis R_refl : forall w, R w w.
Hypothesis R_trans : forall a b c, R a b -> R b c -> R a c.
Hypothesis R_logged : forall line w, R w (logged line w).
Hypothesis R_insertRow :
  forall storageFault da w,
    emitted da -> R w (fst (insertRow storageFault da w)).

Variable storageFault : nat -> option jsstring.
Variable today : jsstring.

Lemma processRow_respects (m : HeaderMapping) (url : jsstring) (row : RawRow)
  (w : World) :
  R w (fst (processRow storageFault today m url row w)).
Proof.
  destruct (processRow_cases storageFault today m url row w)
    as [[He ->]|[(_ & _ & ->)|(_ & _ & ->)]]; try apply R_refl.
  apply R_insertRow. apply emits_Some in He. now exists m, url, today, row.
Qed.

Lemma processRows_respects (m : HeaderMapping) (url : jsstring)
  (rows : list RawRow) :
  forall w, R w (fst (processRows storageFault today m url rows w)).
Proof.
  induction rows as [|row rest IH]; intros w; [apply R_refl|].
  cbn [processRows]. unfold bind.
  pose proof (processRow_respects m url row w) as H.
  destruct (processRow storageFault today m url row w) as [w' [[]|e]];
    cbn [fst] in *; [|exact H].
  eapply R_trans; [exact H | apply IH].
Qed.

Lemma processCsv_respects (url : jsstring) (rows : list RawRow) (w : World) :
  R w (fst (processCsv storageFault today url rows w)).
Proof.
  unfold processCsv, bind. rewrite consoleLog_logged.
  eapply R_trans; [apply R_logged|].
  destruct rows as [|header dataRows]; [apply R_refl|].
  destruct (mandatoryColumnMissing (locateColumns header)).
  - rewrite consoleLog_logged. apply R_logged.
  - apply processRows_respects.
Qed.

Lemma processSources_respects (sources : list (jsstring * list RawRow)) :
  forall w, R w (fst (processSources storageFault today sources w)).
Proof.
  induction sources as [|[url rows] rest IH]; intros w; [apply R_refl|].
  cbn [processSources]. unfold bind.
  pose proof (processCsv_respects url rows w) as H.
  destruct (processCsv storageFault today url rows w) as [w' [[]|e]];
    cbn [fst] in *; [|exact H].
  eapply R_trans; [exact H | apply IH].
Qed.

Lemma run_respects (sources : list (jsstring * list RawRow)) (w : World) :
  R w (fst (run storageFault today sources w)).
Proof.
  unfold run. pose proof (processSources_respects sources w) as H.
  destruct (processSources storageFault today sources w) as [w' [[]|e]];
    cbn [fst] in H.
  - rewrite consoleLog_logged. eapply R_trans; [exact H | apply R_logged].
  - rewrite consoleError_logged. eapply R_trans; [exact H | apply R_logged].
Qed.

End Transitions.

(** X7: whatever the sources hold and whatever the storage layer does, a
    run only adds rows at the end of the table: the rows that were there
    stay, unchanged and in place. *)
Theorem run_table_only_grows
  (storageFault : nat -> option jsstring) (today : jsstring)
  (sources : list (jsstring * list RawRow)) (w : World) :
  exists added,
    table (fst (run storageFault today sources w)) = table w ++ added.
Proof.
  apply (run_respects (fun a b => exists added, table b = table a ++ added)).
  - intros a. exists []. now rewrite app_nil_r.
  - intros a b c [x Hx] [y Hy]. exists (x ++ y). now rewrite Hy, Hx, app_assoc.
  - intros line a. exists []. cbn. now rewrite app_nil_r.
  - intros sf da a _.
    destruct (insertRow_world sf da a) as (_ & _ & [E|[_ E]]); rewrite E.
    + exists []. now rewrite app_nil_r.
    + now exists [toStoredRow da].
Qed.

Lemma hasKey_In (key : jsstring) (t : Database.Table) :
  Database.hasKey key t = true <-> In key (keys t).
Proof.
  unfold Database.hasKey, keys. rewrite existsb_exists, in_map_iff.
  split; intros (r & H1 & H2); exists r.
  - apply eqb_eq in H2. now split.
  - split; [exact H2 | now apply eqb_eq].
Qed.

(** X8: a run keeps the application numbers of the table distinct. *)
Theorem run_keeps_keys_unique
  (storageFault : nat -> option jsstring) (today : jsstring)
  (sources : list (jsstring * list RawRow)) (w : World) :
  NoDup (keys (table w)) ->
  NoDup (keys (table (fst (run storageFault today sources w)))).
Proof.
  apply (run_respects
           (fun a b => NoDup (keys (table a)) -> NoDup (keys (table b)))).
  - auto.
  - auto.
  - auto.
  - intros sf da a _ Hnd.
    destruct (insertRow_world sf da a) as (_ & _ & [E|[Hk E]]); rewrite E;
      [exact Hnd|].
    unfold keys. rewrite map_app. cbn [map toStoredRow Database.council_reference].
    apply NoDup_app; [exact Hnd | repeat constructor; intros [] |].
    intros key Hin [<-|[]].
    apply hasKey_In in Hin. congruence.
Qed.

Lemma run_keeps_keys_unique_witness :
  let header : RawRow := [lit "ApplicationNumber"; lit "PropertyAddress"] in
  let rows : list RawRow :=
    [header; [lit "DA1"; lit "1 Smith St"]; [lit "DA1"; lit "9 Other St"];
     [lit "DA2"; lit "2 Smith St"]] in
  NoDup (keys (table (fst (run noFault (lit "2020-03-01")
                             [(lit "a.csv", rows); (lit "b.csv", rows)]
                             emptyWorld)))).
Proof.
  intros header rows.
  apply (run_keeps_keys_unique noFault (lit "2020-03-01")
           [(lit "a.csv", rows); (lit "b.csv", rows)] emptyWorld).
  constructor.
Defined.

Lemma trimmedOrEmpty_normal (row : RawRow) (i : Z) :
  noWhiteSpaceAtStart (trimmedOrEmpty row i)
  /\ noWhiteSpaceAtEnd (trimmedOrEmpty row i).
Proof.
  unfold trimmedOrEmpty. destruct (cellAt row i) as [cell|].
  - apply trim_normal.
  - split; exact I.
Qed.

Lemma emitted_wellStored (da : DevelopmentApplication) :
  emitted da -> wellStored (toStoredRow da).
Proof.
  intros (m & url & today & row & H).
  apply extractRecord_Some in H as (-> & Hn & Ha).
  unfold wellStored.
  cbn [toStoredRow recordOf Database.council_reference Database.address
       Database.description Database.comment_url Database.on_notice_from
       Database.on_notice_to applicationNumber address description commentUrl]
    in *.
  destruct (trimmedOrEmpty_normal row (applicationNumberColumnIndex m))
    as [Hs He].
  conjuncts; try assumption; try reflexivity.
  - apply combineWith_normalized.
  - destruct (isEmpty (trimmedOrEmpty row (descriptionColumnIndex m))) eqn:E;
      [discriminate | now apply isEmpty_false].
Qed.

(** X9: every row a run writes has a non-empty application number without
    white space at its ends, a non-empty address without white space at its
    ends or two white-space code units in a row, a non-empty description,
    the fixed comment address, and no notice dates, whatever the table held
    before; a table whose rows are all of this kind stays so. *)
Theorem run_keeps_rows_well_stored
  (storageFault : nat -> option jsstring) (today : jsstring)
  (sources : list (jsstring * list RawRow)) (w : World) :
  exists added,
    table (fst (run storageFault today sources w)) = table w ++ added
    /\ Forall wellStored added
    /\ (Forall wellStored (table w) ->
        Forall wellStored (table (fst (run storageFault today sources w)))).
Proof.
  assert (H : exists added,
             table (fst (run storageFault today sources w)) = table w ++ added
             /\ Forall wellStored added).
  { apply (run_respects
             (fun a b => exists added,
                  table b = table a ++ added /\ Forall wellStored added)).
    - intros a. exists []. split; [now rewrite app_nil_r | constructor].
    - intros a b c (x & Hx & Fx) (y & Hy & Fy). exists (x ++ y). split.
      + now rewrite Hy, Hx, app_assoc.
      + apply Forall_app. now split.
    - intros line a. exists []. split; [cbn; now rewrite app_nil_r | constructor].
    - intros sf da a Hda.
      destruct (insertRow_world sf da a) as (_ & _ & [E|[_ E]]); rewrite E.
      + exists []. split; [now rewrite app_nil_r | constructor].
      + exists [toStoredRow da]. split; [reflexivity|].
        constructor; [now apply emitted_wellStored | constructor]. }
  destruct H as (added & E & Hadded). exists added.
  split; [exact E|]. split; [exact Hadded|].
  intros Hall. rewrite E. apply Forall_app. now split.
Qed.

Lemma run_keeps_rows_well_stored_witness :
  let header : RawRow := [lit "ApplicationNumber"; lit "PropertyAddress";
                          lit "ApplicationDesc"] in
  let rows : list RawRow :=
    [header; [lit " DA1 "; lit " 1  Smith   St "; lit " "];
     [[]; lit "2 Smith St"; lit "Shed"]] in
  let legacy :=
    {| Database.council_reference := lit " OLD ";
       Database.address := [];
       Database.description := [];
       Database.info_url := [];
       Database.comment_url := [];
       Database.date_scraped := [];
       Database.date_received := [];
       Database.on_notice_from := Some (lit "2019-01-01");
       Database.on_notice_to := None |} in
  let w := {| table := [legacy]; console := []; statements := 0 |} in
  exists added,
    table (fst (run noFault (lit "2020-03-01") [(lit "a.csv", rows)] w))
    = [legacy] ++ added
    /\ length added = 1
    /\ Forall wellStored added.
Proof.
  intros header rows legacy w.
  destruct (run_keeps_rows_well_stored noFault (lit "2020-03-01")
              [(lit "a.csv", rows)] w) as (added & E & Hadded & _).
  exists added. split; [exact E|]. split; [|exact Hadded].
  apply (f_equal (@length Database.StoredRow)) in E.
  rewrite length_app in E.
  change (length (table w)) with 1 in E.
  assert (L : length (table (fst (run noFault (lit "2020-03-01")
                                    [(lit "a.csv", rows)] w))) = 2)
    by reflexivity.
  rewrite L in E. lia.
Defined.

(** ** Rows, statements and exceptions *)

Lemma insertRow_no_fault_Ok (storageFault : nat -> option jsstring)
  (da : DevelopmentApplication) (w : World) :
  storageFault (statements w) = None ->
  snd (insertRow storageFault da w) = Ok tt.
Proof.
  intros F. rewrite (insertRow_no_fault storageFault da w F).
  now destruct (Database.insertOrIgnore (toStoredRow da) (table w)).
Qed.

Lemma processRows_readable_Ok (storageFault : nat -> option jsstring)
  (today : jsstring) (m : HeaderMapping) (url : jsstring)
  (rows : list RawRow) :
  (forall n, storageFault n = None) ->
  Forall (allReadable m) rows ->
  forall w, snd (processRows storageFault today m url rows w) = Ok tt.
Proof.
  intros Hsf. induction 1 as [|row rest Hrow _ IH]; intros w; [reflexivity|].
  cbn [processRows]. unfold bind.
  destruct (processRow_cases storageFault today m url row w)
    as [[_ E]|[(_ & _ & E)|(_ & Ex & _)]].
  - rewrite E.
    pose proof (insertRow_no_fault_Ok storageFault
                  (recordOf m url today row) w (Hsf _)) as Hok.
    destruct (insertRow storageFault (recordOf m url today row) w)
      as [w' r]. cbn [snd] in Hok. subst r. apply IH.
  - rewrite E. apply IH.
  - rewrite (extractRecord_readable m url today row Hrow) in Ex. discriminate.
Qed.

(** X10: when the storage layer accepts every statement, a CSV whose rows
    are all as long as its header is processed to the end without an
    exception, whether or not its header passes the test on the mandatory
    columns. *)
Theorem rectangular_csv_never_throws
  (storageFault : nat -> option jsstring) (today url : jsstring)
  (header : RawRow) (dataRows : list RawRow) (w : World) :
  (forall n, storageFault n = None) ->
  rectangular header dataRows ->
  snd (processCsv storageFault today url (header :: dataRows) w) = Ok tt.
Proof.
  intros Hsf Hrect. unfold processCsv, bind. rewrite consoleLog_logged.
  destruct (mandatoryColumnMissing (locateColumns header)) eqn:G;
    [reflexivity|].
  apply processRows_readable_Ok; [exact Hsf|].
  unfold rectangular in Hrect. eapply Forall_impl; [|exact Hrect].
  intros row Hlen. cbv beta in Hlen.
  apply allReadable_rectangular; [exact G | rewrite Hlen; apply le_n].
Qed.

Lemma rectangular_csv_never_throws_witness :
  snd (processCsv noFault (lit "2020-03-01") (lit "a.csv")
         [[lit "ApplicationNumber"; lit "PropertyAddress"; lit "Ward"];
          [lit "DA1"; lit "1 Smith St"; lit "3"];
          [[]; lit "  "; []]] emptyWorld) = Ok tt.
Proof.
  apply (rectangular_csv_never_throws noFault (lit "2020-03-01") (lit "a.csv")
           [lit "ApplicationNumber"; lit "PropertyAddress"; lit "Ward"]
           [[lit "DA1"; lit "1 Smith St"; lit "3"]; [[]; lit "  "; []]]
           emptyWorld).
  - reflexivity.
  - repeat constructor.
Defined.

(** X11: a row loop that ends without an exception has run one statement
    and written one console line for each row that yields a record, and
    nothing for the others. *)
Theorem processRows_one_statement_per_record
  (storageFault : nat -> option jsstring) (today : jsstring)
  (m : HeaderMapping) (url : jsstring) (rows : list RawRow) (w w' : World) :
  processRows storageFault today m url rows w = (w', Ok tt) ->
  statements w' = statements w + length (filter (emits m url today) rows)
  /\ length (console w')
     = length (console w) + length (filter (emits m url today) rows).
Proof.
  revert w. induction rows as [|row rest IH]; intros w.
  - cbn. intros H. injection H as <-. lia.
  - cbn [processRows filter]. unfold bind.
    destruct (processRow_cases storageFault today m url row w)
      as [[He E]|[(He & _ & E)|(_ & _ & E)]]; rewrite E; try rewrite He.
    + destruct (insertRow_world storageFault (recordOf m url today row) w)
        as (Hs & (line & Hc) & _).
      destruct (insertRow storageFault (recordOf m url today row) w)
        as [w1 [[]|e]]; [|discriminate].
      cbn [fst] in Hs, Hc. intros H. apply IH in H as [H1 H2].
      rewrite H1, H2, Hs, Hc, length_app. cbn [length]. lia.
    + apply IH.
    + discriminate.
Qed.

Lemma processRows_one_statement_per_record_witness :
  let m := locateColumns [lit "ApplicationNumber"; lit "PropertyAddress"] in
  let rows : list RawRow :=
    [[lit "DA1"; lit "1 Smith St"]; [lit " "; lit "2 Smith St"];
     [lit "DA1"; lit "1 Smith St"]] in
  let w' := fst (processRows noFault (lit "2020-03-01") m (lit "a.csv") rows
                   emptyWorld) in
  statements w' = 2 /\ length (console w') = 2.
Proof.
  intros m rows w'.
  apply (processRows_one_statement_per_record noFault (lit "2020-03-01") m
           (lit "a.csv") rows emptyWorld w').
  reflexivity.
Defined.

(** X12: a row that lacks a needed cell ends the row loop with a type
    error: the world is the one the rows before it left, so what they wrote
    stays written, and the rows after it are not read. *)
Theorem missing_cell_aborts_row_loop
  (storageFault : nat -> option jsstring) (today : jsstring)
  (m : HeaderMapping) (url : jsstring)
  (before : list RawRow) (row : RawRow) (rest : list RawRow)
  (w0 w : World) :
  processRows storageFault today m url before w0 = (w, Ok tt) ->
  ~ allReadable m row ->
  processRows storageFault today m url (before ++ row :: rest) w0
  = (w, Throw TypeError).
Proof.
  intros Hbefore Hno. rewrite processRows_app, Hbefore.
  cbn [processRows]. unfold bind.
  destruct (processRow_cases storageFault today m url row w)
    as [[He _]|[(_ & Ex & _)|(_ & _ & E)]].
  - exfalso. apply Hno. apply emits_Some in He.
    eapply extractRecord_Ok. exact He.
  - exfalso. apply Hno. eapply extractRecord_Ok. exact Ex.
  - now rewrite E.
Qed.

Lemma missing_cell_aborts_row_loop_witness :
  let m := locateColumns [lit "ApplicationNumber"; lit "PropertyAddress"] in
  let result := processRows noFault (lit "2020-03-01") m (lit "a.csv")
                  ([[lit "DA1"; lit "1 Smith St"]] ++ [lit "DA2"]
                     :: [[lit "DA3"; lit "3 Smith St"]]) emptyWorld in
  snd result = Throw TypeError
  /\ keys (table (fst result)) = [lit "DA1"].
Proof.
  intros m result.
  set (w := fst (processRows noFault (lit "2020-03-01") m (lit "a.csv")
                   [[lit "DA1"; lit "1 Smith St"]] emptyWorld)).
  assert (E : result = (w, Throw TypeError)).
  { apply (missing_cell_aborts_row_loop noFault (lit "2020-03-01") m
             (lit "a.csv") [[lit "DA1"; lit "1 Smith St"]] [lit "DA2"]
             [[lit "DA3"; lit "3 Smith St"]] emptyWorld w).
    - reflexivity.
    - intros (_ & [H|(cell & H)] & _); discriminate H. }
  rewrite E. split; reflexivity.
Defined.

(** ** Scraping the same rows again *)

Lemma emits_independent (m : HeaderMapping) (url today url' today' : jsstring)
  (row : RawRow) :
  allReadable m row ->
  emits m url today row = emits m url' today' row.
Proof.
  intros Hread. unfold emits.
  rewrite (extractRecord_readable m url today row Hread).
  rewrite (extractRecord_readable m url' today' row Hread).
  cbn [recordOf applicationNumber Scraper.address].
  now destruct (negb _ && negb _).
Qed.

Lemma processRows_grows (storageFault : nat -> option jsstring)
  (today : jsstring) (m : HeaderMapping) (url : jsstring)
  (rows : list RawRow) (w : World) :
  exists added,
    table (fst (processRows storageFault today m url rows w))
    = table w ++ added.
Proof.
  apply (processRows_respects
           (fun a b => exists added, table b = table a ++ added)).
  - intros a. exists []. now rewrite app_nil_r.
  - intros a b c [x Hx] [y Hy]. exists (x ++ y). now rewrite Hy, Hx, app_assoc.
  - intros sf da a _.
    destruct (insertRow_world sf da a) as (_ & _ & [E|[_ E]]); rewrite E.
    + exists []. now rewrite app_nil_r.
    + now exists [toStoredRow da].
Qed.

Lemma processRows_Ok_keys (storageFault : nat -> option jsstring)
  (today : jsstring) (m : HeaderMapping) (url : jsstring)
  (rows : list RawRow) :
  forall w w1,
    processRows storageFault today m url rows w = (w1, Ok tt) ->
    Forall (allReadable m) rows
    /\ Forall (fun row => emits m url today row = true ->
                          Database.hasKey (rowKey m row) (table w1) = true)
         rows.
Proof.
  induction rows as [|row rest IH]; intros w w1; [now split|].
  cbn [processRows]. unfold bind.
  destruct (processRow storageFault today m url row w) as [wa [[]|e]] eqn:Ew;
    [|discriminate].
  intros Hrest. destruct (IH wa w1 Hrest) as [Hr Hk].
  destruct (processRows_grows storageFault today m url rest wa) as [added Hg].
  rewrite Hrest in Hg. cbn [fst] in Hg.
  destruct (processRow_cases storageFault today m url row w)
    as [[He E]|[(He & Ex & _)|(_ & _ & E)]].
  - split.
    + constructor; [|exact Hr]. apply emits_Some in He.
      eapply extractRecord_Ok. exact He.
    + constructor; [|exact Hk]. intros _.
      rewrite E in Ew.
      destruct (insertRow_Ok_key storageFault (recordOf m url today row) w)
        as [_ Hkey]; [now rewrite Ew|].
      rewrite Ew in Hkey. cbn [fst recordOf applicationNumber] in Hkey.
      rewrite Hg, hasKey_app. unfold rowKey. now rewrite Hkey.
  - split.
    + constructor; [|exact Hr]. eapply extractRecord_Ok. exact Ex.
    + constructor; [|exact Hk]. congruence.
  - rewrite E in Ew. discriminate.
Qed.

Lemma processRows_all_skipped (storageFault : nat -> option jsstring)
  (today : jsstring) (m : HeaderMapping) (url : jsstring)
  (rows : list RawRow) :
  (forall n, storageFault n = None) ->
  forall w,
    Forall (allReadable m) rows ->
    Forall (fun row => emits m url today row = true ->
                       Database.hasKey (rowKey m row) (table w) = true) rows ->
    exists lines,
      processRows storageFault today m url rows w
      = ({| table := table w;
            console := console w ++ lines;
            statements := statements w + length lines |}, Ok tt)
      /\ Forall isSkipLine lines.
Proof.
  intros Hsf. induction rows as [|row rest IH]; intros w Hread Hkeys.
  - exists []. cbn. rewrite app_nil_r, Nat.add_0_r. destruct w. now split.
  - apply Forall_cons_iff in Hread as [Hrow Hread].
    apply Forall_cons_iff in Hkeys as [Hkey Hkeys].
    cbn [processRows]. unfold bind.
    destruct (processRow_cases storageFault today m url row w)
      as [[He E]|[(_ & _ & E)|(_ & Ex & _)]].
    + rewrite E, (insertRow_no_fault storageFault _ w (Hsf _)).
      rewrite insertOrIgnore_present by (exact (Hkey He)).
      cbn [N.ltb N.compare].
      match goal with
      | |- context [processRows _ _ _ _ rest ?wa] =>
          destruct (IH wa Hread Hkeys) as (lines & -> & Hl)
      end.
      exists (ConsoleLog (skippedMessage (recordOf m url today row)) :: lines).
      cbn [table console statements length]. split.
      * f_equal. f_equal; [now rewrite <- app_assoc | lia].
      * constructor; [eexists; reflexivity | exact Hl].
    + rewrite E. now apply IH.
    + rewrite (extractRecord_readable m url today row Hrow) in Ex.
      discriminate.
Qed.

(** X13: after a row loop that ended without an exception, the same rows
    processed again, on whatever day and under whatever url, change nothing
    in the table when the storage layer accepts the statements: every record
    is reported as skipped. *)
Theorem rescrape_changes_nothing
  (storageFault storageFault' : nat -> option jsstring)
  (today today' url url' : jsstring) (m : HeaderMapping)
  (rows : list RawRow) (w w1 : World) :
  processRows storageFault today m url rows w = (w1, Ok tt) ->
  (forall n, storageFault' n = None) ->
  exists lines,
    processRows storageFault' today' m url' rows w1
    = ({| table := table w1;
          console := console w1 ++ lines;
          statements := statements w1 + length lines |}, Ok tt)
    /\ Forall isSkipLine lines.
Proof.
  intros Hfirst Hsf.
  destruct (processRows_Ok_keys storageFault today m url rows w w1 Hfirst)
    as [Hread Hkeys].
  apply processRows_all_skipped; [exact Hsf | exact Hread |].
  rewrite Forall_forall in *. intros row Hin He.
  apply Hkeys; [exact Hin|].
  now rewrite (emits_independent m url today url' today' row (Hread row Hin)).
Qed.

Lemma rescrape_changes_nothing_witness :
  let m := locateColumns [lit "ApplicationNumber"; lit "PropertyAddress"] in
  let rows : list RawRow :=
    [[lit "DA1"; lit "1 Smith St"]; [lit "DA2"; lit "2 Smith St"]] in
  let w1 := fst (processRows noFault (lit "2020-03-01") m (lit "a.csv") rows
                   emptyWorld) in
  table (fst (processRows noFault (lit "2020-03-02") m (lit "b.csv") rows w1))
  = table w1.
Proof.
  intros m rows w1.
  destruct (rescrape_changes_nothing noFault noFault (lit "2020-03-01")
              (lit "2020-03-02") (lit "a.csv") (lit "b.csv") m rows
              emptyWorld w1 eq_refl (fun _ => eq_refl))
    as (lines & E & _).
  rewrite E. reflexivity.
Defined.

(** ** Discovery and choice of the CSV files *)

Lemma some_eqb_In (href : jsstring) (urls : list jsstring) :
  existsb (fun url => eqb url href) urls = true <-> In href urls.
Proof.
  rewrite existsb_exists. split.
  - intros (u & Hin & E). apply eqb_eq in E. now subst.
  - intros Hin. exists href. split; [exact Hin | apply eqb_refl].
Qed.

Lemma collectUrls_snoc (hrefs : list jsstring) (href : jsstring) :
  forall urls,
    collectUrls (hrefs ++ [href]) urls
    = if existsb (fun url => eqb url href) (collectUrls hrefs urls)
      then collectUrls hrefs urls
      else collectUrls hrefs urls ++ [href].
Proof.
  induction hrefs as [|h rest IH]; intros urls; [reflexivity|].
  cbn [app collectUrls]. apply IH.
Qed.

Lemma collectUrls_spec (hrefs : list jsstring) :
  forall urls,
    NoDup urls ->
    NoDup (collectUrls hrefs urls)
    /\ forall u, In u (collectUrls hrefs urls) <-> In u urls \/ In u hrefs.
Proof.
  induction hrefs as [|href rest IH]; intros urls Hnd.
  - split; [exact Hnd|]. intros u. cbn. tauto.
  - cbn [collectUrls].
    destruct (existsb (fun url => eqb url href) urls) eqn:E.
    + apply some_eqb_In in E. destruct (IH urls Hnd) as [H1 H2].
      split; [exact H1|]. intros u. rewrite H2. cbn.
      split; [tauto|]. intros [H|[<-|H]]; tauto.
    + assert (Hout : ~ In href urls).
      { intros Hin. apply some_eqb_In in Hin. congruence. }
      assert (Hnd' : NoDup (urls ++ [href])).
      { apply NoDup_app; [exact Hnd | repeat constructor; intros [] |].
        intros u Hu [<-|[]]. contradiction. }
      destruct (IH (urls ++ [href]) Hnd') as [H1 H2].
      split; [exact H1|]. intros u. rewrite H2, in_app_iff. cbn. tauto.
Qed.

Lemma collectUrls_distinct (hrefs : list jsstring) :
  forall urls, NoDup (urls ++ hrefs) -> collectUrls hrefs urls = urls ++ hrefs.
Proof.
  induction hrefs as [|href rest IH]; intros urls Hnd.
  - now rewrite app_nil_r.
  - cbn [collectUrls].
    assert (E : existsb (fun url => eqb url href) urls = false).
    { destruct (existsb _ urls) eqn:E; [|reflexivity].
      apply some_eqb_In in E. apply NoDup_remove_2 in Hnd.
      exfalso. apply Hnd. apply in_app_iff. now left. }
    rewrite E, IH; rewrite <- app_assoc; [reflexivity | exact Hnd].
Qed.

(** X14: the list of urls gathered from the anchors has no url twice and
    holds exactly the hrefs met; an href met before adds nothing and a new
    one goes to the end; a list without repetitions is gathered as it
    stands. *)
Theorem uniqueUrls_spec (hrefs : list jsstring) :
  NoDup (uniqueUrls hrefs)
  /\ (forall u, In u (uniqueUrls hrefs) <-> In u hrefs)
  /\ (forall href,
         (In href hrefs -> uniqueUrls (hrefs ++ [href]) = uniqueUrls hrefs)
         /\ (~ In href hrefs ->
             uniqueUrls (hrefs ++ [href]) = uniqueUrls hrefs ++ [href]))
  /\ uniqueUrls (uniqueUrls hrefs) = uniqueUrls hrefs.
Proof.
  unfold uniqueUrls.
  destruct (collectUrls_spec hrefs [] (NoDup_nil _)) as [Hnd Hin].
  assert (Hin' : forall u, In u (collectUrls hrefs []) <-> In u hrefs).
  { intros u. rewrite Hin. cbn. tauto. }
  split; [exact Hnd|]. split; [exact Hin'|]. split.
  - intros href. rewrite collectUrls_snoc.
    destruct (existsb (fun url => eqb url href) (collectUrls hrefs [])) eqn:E.
    + apply some_eqb_In, Hin' in E. split; [reflexivity | contradiction].
    + split; [|reflexivity]. intros H. apply Hin', some_eqb_In in H.
      congruence.
  - now apply (collectUrls_distinct (collectUrls hrefs []) []).
Qed.

Lemma pop_snoc (rest : list jsstring) (lastUrl : jsstring) :
  pop (rest ++ [lastUrl]) = (Some lastUrl, rest).
Proof.
  unfold pop. rewrite rev_app_distr. cbn. now rewrite rev_involutive.
Qed.

(** X15: from a non-empty list of distinct urls, with a random index that
    lies within the list that is left, the selection is the last url alone
    when there is no other, and else the last url followed by one of the
    others, which differs from it. *)
Theorem selectUrls_spec (getRandom : Z -> Z -> Z) (urls : list jsstring) :
  urls <> [] ->
  NoDup urls ->
  (forall n, (0 < n)%Z -> (0 <= getRandom 0%Z n < n)%Z) ->
  exists lastUrl rest,
    urls = rest ++ [lastUrl]
    /\ ((rest = [] /\ selectUrls getRandom urls = [Some lastUrl])
        \/ (rest <> []
            /\ exists other,
                In other rest /\ other <> lastUrl
                /\ selectUrls getRandom urls = [Some lastUrl; Some other])).
Proof.
  intros Hne Hnd Hrand.
  destruct (exists_last Hne) as (rest & lastUrl & ->).
  exists lastUrl, rest. split; [reflexivity|].
  unfold selectUrls. rewrite pop_snoc.
  destruct rest as [|u rest']; [left; now split|].
  right. split; [discriminate|].
  set (rest := u :: rest') in *.
  assert (Hlen : (0 < Z.of_nat (length rest))%Z) by (cbn; lia).
  specialize (Hrand _ Hlen).
  set (i := getRandom 0%Z (Z.of_nat (length rest))) in *.
  assert (Ei : i = Z.of_nat (Z.to_nat i)) by lia.
  destruct (cellAt_in_bounds rest (Z.to_nat i)) as (other & Hother); [lia|].
  rewrite <- Ei in Hother.
  exists other.
  assert (Hin : In other rest).
  { rewrite Ei, cellAt_of_nat in Hother. eapply nth_error_In. exact Hother. }
  split; [exact Hin|]. split.
  - intros ->. apply NoDup_remove_2 in Hnd. apply Hnd.
    now rewrite app_nil_r.
  - replace (1 <=? length rest) with true by reflexivity.
    now rewrite Hother.
Qed.

Lemma selectUrls_spec_witness :
  let getRandom := fun _ n : Z => (n - 1)%Z in
  let urls := uniqueUrls [lit "a.csv"; lit "b.csv"; lit "a.csv"; lit "c.csv"] in
  exists lastUrl rest,
    urls = rest ++ [lastUrl]
    /\ ((rest = [] /\ selectUrls getRandom urls = [Some lastUrl])
        \/ (rest <> []
            /\ exists other,
                In other rest /\ other <> lastUrl
                /\ selectUrls getRandom urls = [Some lastUrl; Some other])).
Proof.
  intros getRandom urls.
  apply (selectUrls_spec getRandom urls).
  - discriminate.
  - repeat constructor; cbn; intuition discriminate.
  - intros n Hn. unfold getRandom. lia.
Defined.

(** ** The replacing variant of the statement *)

Lemma rowsWithKey_other (key : jsstring) (row : Database.StoredRow) :
  key <> Database.council_reference row ->
  Database.rowsWithKey key [row] = [].
Proof.
  intros H. cbn. apply not_eq_sym in H. apply eqb_neq in H. now rewrite H.
Qed.

Lemma rowsWithKey_filter_others (key other : jsstring) (t : Database.Table) :
  key <> other ->
  Database.rowsWithKey key
    (filter (fun r => negb (eqb (Database.council_reference r) other)) t)
  = Database.rowsWithKey key t.
Proof.
  intros H. unfold Database.rowsWithKey.
  induction t as [|r t IH]; [reflexivity|]. cbn [filter].
  destruct (eqb (Database.council_reference r) other) eqn:E1; cbn [negb].
  - apply eqb_eq in E1.
    assert (E2 : eqb (Database.council_reference r) key = false).
    { apply eqb_neq. congruence. }
    now rewrite E2.
  - cbn [filter]. now rewrite IH.
Qed.

(** X16: under [insert or replace] the table afterwards holds exactly one
    row with the key of the written row, that row itself; rows with other
    keys are as before; distinct keys stay distinct; and the statement
    always counts one change. *)
Theorem insertOrReplace_spec (row : Database.StoredRow) (t : Database.Table) :
  Database.rowsWithKey (Database.council_reference row)
    (fst (Database.insertOrReplace row t)) = [row]
  /\ (forall key, key <> Database.council_reference row ->
        Database.rowsWithKey key (fst (Database.insertOrReplace row t))
        = Database.rowsWithKey key t)
  /\ (NoDup (keys t) -> NoDup (keys (fst (Database.insertOrReplace row t))))
  /\ snd (Database.insertOrReplace row t) = 1%N.
Proof.
  unfold Database.insertOrReplace. cbn [fst snd].
  set (others := filter _ t).
  assert (Hnone : Database.hasKey (Database.council_reference row) others
                  = false).
  { unfold others, Database.hasKey.
    induction t as [|r t IH]; [reflexivity|]. cbn [filter].
    destruct (eqb (Database.council_reference r)
                (Database.council_reference row)) eqn:E; cbn [negb];
      [exact IH|]. cbn [existsb]. now rewrite E, IH. }
  split; [|split; [|split]].
  - rewrite rowsWithKey_app, (hasKey_false_rowsWithKey _ _ Hnone). cbn.
    now rewrite eqb_refl.
  - intros key Hkey. rewrite rowsWithKey_app, (rowsWithKey_other key row Hkey).
    rewrite app_nil_r. now apply rowsWithKey_filter_others.
  - intros Hnd. unfold keys. rewrite map_app. cbn [map].
    apply NoDup_app.
    + unfold others. clear Hnone others.
      induction t as [|r t IH]; [constructor|]. cbn [filter].
      apply NoDup_cons_iff in Hnd as [Hout Hnd]. specialize (IH Hnd).
      destruct (negb _); [|exact IH]. cbn [map].
      constructor; [|exact IH].
      intros Hin. apply Hout. apply in_map_iff in Hin as (x & Hx & Hf).
      apply filter_In in Hf as [Hf _]. apply in_map_iff. now exists x.
    + repeat constructor. intros [].
    + intros key Hin [<-|[]]. apply hasKey_In in Hin. congruence.
  - reflexivity.
Qed.
